(** * anvill/ida.py: translation of IDA types into the anvill type IR,
      and the function registry.

    The development embeds [python/anvill/ida.py] shallowly.

    - The type IR nodes, which the code allocates and then mutates through
      setters, live in an explicit store; a reference is the index of the
      object in the store, so that object identity ([is]) is equality of
      references.  An [IDAFunction] entity is never mutated: it is a record
      that carries the identity of the object.
    - The conversion cache is the [dict] that [_convert_ida_type] receives; it
      is threaded through the conversion together with the store.
    - Exceptions are results: a computation returns a value, raises, or (for
      the fuel-indexed conversion only) runs out of fuel.  A raised exception
      keeps the state reached so far, as in Python.
    - IDA itself ([ida_typeinf], [ida_funcs], [ida_nalt], ...) is not part of
      the repository.  Its answers are fields of the record [ida], over which
      every statement is quantified. *)

From Stdlib Require Import ZArith HexString.
From stdpp Require Import gmap strings list fin_maps.

Local Open Scope string_scope.
Local Open Scope list_scope.
Local Open Scope Z_scope.

(** ** Python values and exceptions *)

(** A foreign type ([ida_typeinf.tinfo_t]): the key under which the cache
    recognises "the same type" (section 4.1 of the specification: a stable
    identity usable as a cache key). *)
Abbreviation handle := nat (only parsing).

(** A reference to a type IR object: its index in the store. *)
Abbreviation ref := nat (only parsing).

(** Modelled from the spec: the architecture classes of arch.py, which is not
    under src/; [get_arch] constructs one object of each. *)
Inductive Arch : Type := AMD64Arch | X86Arch | AArch64Arch.

(** A function region ([ida_funcs.func_t]). *)
Record func_t : Type := Func_t { start_ea : Z; end_ea : Z }.

(** Modelled from the spec: the [Function] class of function.py is not under
    src/.  An entity keeps the architecture, the address and the function type
    it was constructed with ([address()] and [type()] return them); [fn_id]
    is the identity of the object, which no later call changes. *)
Record Function : Type := IDAFunction {
  fn_id : nat;
  fn_arch : Arch;
  address : Z;
  type : ref;
  _ida_func : func_t
}.

(** The values that reach [get_type]. *)
Inductive pyval : Type :=
  | VType (r : ref)          (* an instance of [Type] *)
  | VFunction (f : Function) (* an instance of [Function] *)
  | VTinfo (h : handle)      (* an instance of [ida_typeinf.tinfo_t] *)
  | VInt (z : Z)             (* an address *)
  | VNone
  | VStr (s : string).

(** Python truth value: [0], [None] and the empty string are false, every
    object without [__bool__]/[__len__] is true. *)
Definition truthy (v : pyval) : bool :=
  match v with
  | VInt z => negb (z =? 0)
  | VNone => false
  | VStr s => negb (String.eqb s EmptyString)
  | VType _ | VFunction _ | VTinfo _ => true
  end.

(** Modelled from the spec: the exception classes of exc.py, which is not
    under src/, with the arguments they are raised with; [NameError] is
    Python's own. *)
Inductive exc : Type :=
  | UnhandledTypeException (msg : string) (ty : pyval)
  | InvalidFunction (msg : string)
  | UnhandledArchitectureType (msg : string)
  | NameError (name : string).

Inductive result (A : Type) : Type :=
  | Ok (a : A)
  | Raise (e : exc)
  | OutOfFuel.
Arguments Ok {A} a.
Arguments Raise {A} e.
Arguments OutOfFuel {A}.

(** ** The state-and-exception monad *)

Definition M (S A : Type) : Type := S → result A * S.

Definition ret {S A} (a : A) : M S A := λ st, (Ok a, st).
Definition raise {S A} (e : exc) : M S A := λ st, (Raise e, st).
Definition diverge {S A} : M S A := λ st, (OutOfFuel, st).

Definition bind {S A B} (m : M S A) (k : A → M S B) : M S B :=
  λ st, match m st with
        | (Ok a, st') => k a st'
        | (Raise e, st') => (Raise e, st')
        | (OutOfFuel, st') => (OutOfFuel, st')
        end.

Declare Scope py_scope.
Delimit Scope py_scope with py.
Notation "x <- m ;; k" := (bind m (λ x, k))
  (at level 100, m at next level, right associativity) : py_scope.
Notation "m ;;; k" := (bind m (λ _, k))
  (at level 100, right associativity) : py_scope.
Local Open Scope py_scope.

(** ** The type IR ([type.py]) *)

(** Modelled from the spec: [type.py] is not under src/.  One constructor per
    class of section 3's table; a field that the constructor of the class
    leaves unset until a setter is called is an [option]. *)
Inductive node : Type :=
  | VoidType
  | BoolType
  | IntegerType (size : Z) (is_signed : bool)
  | FloatingPointType (size : Z)
  | PointerType (elem : option ref)
  | ArrayType (elem : option ref) (num : option Z)
  | VectorType (elem : option ref) (num : option Z)
  | FunctionType (rty : option ref) (params : list ref) (is_vararg : bool)
                 (popped : option Z)
  | StructureType (elems : list ref)
  | UnionType (elems : list ref)
  | EnumType (underlying : option ref)
  | TypedefType (underlying : option ref).

(** Modelled from the spec: the setters of [type.py], named as the source
    calls them.  Each one updates the field of section 3's table that its name
    says. *)
Definition set_element_type (e : ref) (n : node) : node :=
  match n with
  | PointerType _ => PointerType (Some e)
  | ArrayType _ k => ArrayType (Some e) k
  | VectorType _ k => VectorType (Some e) k
  | _ => n
  end.

Definition set_num_elements (k : Z) (n : node) : node :=
  match n with
  | ArrayType e _ => ArrayType e (Some k)
  | VectorType e _ => VectorType e (Some k)
  | _ => n
  end.

Definition set_return_type (r : ref) (n : node) : node :=
  match n with
  | FunctionType _ ps va po => FunctionType (Some r) ps va po
  | _ => n
  end.

Definition add_parameter_type (p : ref) (n : node) : node :=
  match n with
  | FunctionType r ps va po => FunctionType r (ps ++ [p]) va po
  | _ => n
  end.

Definition set_is_vararg (n : node) : node :=
  match n with
  | FunctionType r ps _ po => FunctionType r ps true po
  | _ => n
  end.

Definition set_num_bytes_popped_off_stack (k : Z) (n : node) : node :=
  match n with
  | FunctionType r ps va _ => FunctionType r ps va (Some k)
  | _ => n
  end.

Definition add_element_type (e : ref) (n : node) : node :=
  match n with
  | StructureType es => StructureType (es ++ [e])
  | UnionType es => UnionType (es ++ [e])
  | _ => n
  end.

Definition set_underlying_type (u : ref) (n : node) : node :=
  match n with
  | EnumType _ => EnumType (Some u)
  | TypedefType _ => TypedefType (Some u)
  | _ => n
  end.

(** ** The foreign type accessor ([ida_typeinf.tinfo_t]) *)

(** What one [tinfo_t] answers to the queries that [_convert_ida_type] makes.
    The parameters of a function type are the list [args] ([get_nargs] is its
    length and [get_nth_arg i] its [i]-th element).  The members that
    [find_udt_member] can enumerate are the list [udt_members]: as in section
    4.3 (d) of the specification, the call for index [i] either finds member
    [i] and gives its type, or finds nothing; [get_udt_nmembers] is the count
    the type reports, which may be larger. *)
Record tinfo : Type := Tinfo {
  empty : bool;
  is_void : bool;
  is_paf : bool;
  is_ptr : bool;
  is_func : bool;
  is_array : bool;
  is_sse_type : bool;
  is_sue : bool;
  is_udt : bool;
  is_struct : bool;
  is_enum : bool;
  is_bool : bool;
  is_integral : bool;
  is_uint128 : bool;
  is_int128 : bool;
  is_uint64 : bool;
  is_int64 : bool;
  is_uint32 : bool;
  is_int32 : bool;
  is_uint16 : bool;
  is_int16 : bool;
  is_uchar : bool;
  is_char : bool;
  is_floating : bool;
  is_ldouble : bool;
  is_double : bool;
  is_float : bool;
  is_complex : bool;
  is_typeref : bool;
  get_pointed_object : handle;
  get_rettype : handle;
  args : list handle;
  is_vararg_cc : bool;
  is_purging_cc : bool;
  calc_purged_bytes : Z;
  get_array_element : handle;
  get_array_nelems : Z;
  get_size : Z;
  get_udt_nmembers : nat;
  udt_members : list handle;
  get_enum_base_type : handle;
  get_unpadded_size : Z;
  get_realtype : handle;
  dstr : string
}.

(** The default-constructed [tinfo_t()]: empty, every other query negative. *)
Definition tinfo_t : tinfo :=
  {| empty := true; is_void := false; is_paf := false; is_ptr := false;
     is_func := false; is_array := false; is_sse_type := false;
     is_sue := false; is_udt := false; is_struct := false; is_enum := false;
     is_bool := false; is_integral := false; is_uint128 := false;
     is_int128 := false; is_uint64 := false; is_int64 := false;
     is_uint32 := false; is_int32 := false; is_uint16 := false;
     is_int16 := false; is_uchar := false; is_char := false;
     is_floating := false; is_ldouble := false; is_double := false;
     is_float := false; is_complex := false; is_typeref := false;
     get_pointed_object := 0%nat; get_rettype := 0%nat; args := [];
     is_vararg_cc := false; is_purging_cc := false; calc_purged_bytes := 0;
     get_array_element := 0%nat; get_array_nelems := 0; get_size := 0;
     get_udt_nmembers := 0%nat; udt_members := [];
     get_enum_base_type := 0%nat; get_unpadded_size := 0;
     get_realtype := 0%nat; dstr := "?" |}.

(** The outcome of one of the two type-information queries of [get_type]:
    the call raises, or it returns [q_ok] after filling the [tinfo_t] it was
    given with [q_fill] (leaving it as it was when [q_fill] is [None]). *)
Inductive query : Type :=
  | QRaises
  | QReturns (q_ok : bool) (q_fill : option handle).

(** The host tool.  [types] is its type database: a handle that it does not
    describe answers like the default-constructed [tinfo_t()].  The last two
    fields are the two methods of type.py and exc.py, neither under src/,
    whose text the code only passes on. *)
Record ida : Type := Ida {
  types : gmap nat tinfo;
  get_func : Z → option func_t;
  get_prev_func : Z → option func_t;
  func_contains : func_t → Z → bool;
  get_tinfo : pyval → query;
  guess_tinfo : pyval → query;
  f_has_name : Z → bool;
  get_func_name : Z → string;
  (* [Type.serialize] of type.py, whose text [get_function] prints *)
  serialize : Arch → list node → ref → string;
  (* [str(e)] of an [UnhandledTypeException] of exc.py *)
  exc_str : string → pyval → string
}.

Definition tinfo_of (db : ida) (ty : handle) : tinfo :=
  default tinfo_t (types db !! ty).

(** ** The conversion state *)

Record cstate : Type := CState {
  heap : list node;
  cache : gmap nat ref
}.

(** [C()] for a class [C] of the IR: a new object, whose reference is the next
    index of the store. *)
Definition alloc (n : node) : M cstate ref :=
  λ st, (Ok (length (heap st)), CState (heap st ++ [n]) (cache st)).

(** A setter call [r.set_...(...)]. *)
Definition update (r : ref) (f : node → node) : M cstate unit :=
  λ st, (Ok tt, CState (alter f r (heap st)) (cache st)).

(** [cache[ty] = r] *)
Definition cache_set (ty : handle) (r : ref) : M cstate unit :=
  λ st, (Ok tt, CState (heap st) (<[ty := r]> (cache st))).

(** [ty in cache] and [cache[ty]] *)
Definition cache_get (ty : handle) : M cstate (option ref) :=
  λ st, (Ok (cache st !! ty), st).

(** ** [_convert_ida_type] *)

Section Convert.
Context (db : ida).

(** The [while i < max_i] loop over the parameters of a function type:
    [ret.add_parameter_type(_convert_ida_type(ty.get_nth_arg(i), cache))]. *)
Fixpoint add_parameters (conv : handle → M cstate ref) (r : ref)
    (l : list handle) : M cstate unit :=
  match l with
  | [] => ret tt
  | a :: l' =>
      p <- conv a ;;
      update r (add_parameter_type p) ;;;
      add_parameters conv r l'
  end.

(** The [while i < max_i] loop over the members of a structure or union:
    [n] iterations remain and [i] is the index of the next member.  When
    [find_udt_member] does not find member [i] the loop is left ([break]). *)
Fixpoint add_members (conv : handle → M cstate ref) (ms : list handle)
    (r : ref) (n : nat) (i : nat) : M cstate unit :=
  match n with
  | O => ret tt
  | S n' =>
      match ms !! i with
      | None => ret tt
      | Some m =>
          e <- conv m ;;
          update r (add_element_type e) ;;;
          add_members conv ms r n' (S i)
      end
  end.

(** The classification chain of [_convert_ida_type] (everything after the
    cache lookup), with the recursive calls made through [conv]. *)
Definition convert_miss (conv : handle → M cstate ref) (ty : handle)
    : M cstate ref :=
  let t := tinfo_of db ty in
    (* Void type. *)
    if empty t || is_void t then
      alloc VoidType
    (* Pointer, array, or function. *)
    else if is_paf t then
      if is_ptr t then
        r <- alloc (PointerType None) ;;
        cache_set ty r ;;;
        e <- conv (get_pointed_object t) ;;
        update r (set_element_type e) ;;;
        ret r
      else if is_func t then
        r <- alloc (FunctionType None [] false None) ;;
        cache_set ty r ;;;
        rt <- conv (get_rettype t) ;;
        update r (set_return_type rt) ;;;
        add_parameters conv r (args t) ;;;
        (if is_vararg_cc t then update r set_is_vararg else ret tt) ;;;
        (if is_purging_cc t
         then update r (set_num_bytes_popped_off_stack (calc_purged_bytes t))
         else ret tt) ;;;
        ret r
      else if is_array t then
        r <- alloc (ArrayType None None) ;;
        cache_set ty r ;;;
        e <- conv (get_array_element t) ;;
        update r (set_element_type e) ;;;
        update r (set_num_elements (get_array_nelems t)) ;;;
        ret r
      else
        raise (UnhandledTypeException
                 ("Unhandled pointer, array, or function type: " +:+ dstr t)
                 (VTinfo ty))
    (* Vector types. *)
    else if is_sse_type t then
      r <- alloc (VectorType None None) ;;
      cache_set ty r ;;;
      e <- alloc (IntegerType 1 false) ;;
      update r (set_element_type e) ;;;
      update r (set_num_elements (get_size t)) ;;;
      ret r
    (* Structure, union, or enumerator. *)
    else if is_sue t then
      if is_udt t then
        (* [ty.is_struct() and StructureType() or UnionType()]: an instance
           of [StructureType] is a true value, so the [or] keeps it. *)
        r <- (if is_struct t then alloc (StructureType [])
              else alloc (UnionType [])) ;;
        cache_set ty r ;;;
        add_members conv (udt_members t) r (get_udt_nmembers t) 0%nat ;;;
        ret r
      else if is_enum t then
        r <- alloc (EnumType None) ;;
        cache_set ty r ;;;
        u <- conv (get_enum_base_type t) ;;
        update r (set_underlying_type u) ;;;
        ret r
      else
        raise (UnhandledTypeException
                 ("Unhandled struct, union, or enum type: " +:+ dstr t)
                 (VTinfo ty))
    (* Boolean type. *)
    else if is_bool t then
      alloc BoolType
    (* Integer type. *)
    else if is_integral t then
      if is_uint128 t then alloc (IntegerType 16 false)
      else if is_int128 t then alloc (IntegerType 16 true)
      else if is_uint64 t then alloc (IntegerType 8 false)
      else if is_int64 t then alloc (IntegerType 8 true)
      else if is_uint32 t then alloc (IntegerType 4 false)
      else if is_int32 t then alloc (IntegerType 4 true)
      else if is_uint16 t then alloc (IntegerType 2 false)
      else if is_int16 t then alloc (IntegerType 2 true)
      else if is_uchar t then alloc (IntegerType 1 false)
      else if is_char t then alloc (IntegerType 1 true)
      else
        raise (UnhandledTypeException
                 ("Unhandled integral type: " +:+ dstr t) (VTinfo ty))
    (* Floating point. *)
    else if is_floating t then
      if is_ldouble t then alloc (FloatingPointType (get_unpadded_size t))
      else if is_double t then alloc (FloatingPointType 8)
      else if is_float t then alloc (FloatingPointType 4)
      else
        raise (UnhandledTypeException
                 ("Unhandled floating point type: " +:+ dstr t) (VTinfo ty))
    else if is_complex t then
      raise (UnhandledTypeException
               ("Complex numbers are not yet handled: " +:+ dstr t)
               (VTinfo ty))
    (* Type alias/reference. *)
    else if is_typeref t then
      r <- alloc (TypedefType None) ;;
      cache_set ty r ;;;
      u <- conv (get_realtype t) ;;
      update r (set_underlying_type u) ;;;
      ret r
    else
      raise (UnhandledTypeException ("Unhandled type: " +:+ dstr t)
               (VTinfo ty)).

(** The body of [_convert_ida_type]: [if ty in cache: return cache[ty]],
    then the classification chain. *)
Definition convert_body (conv : handle → M cstate ref) (ty : handle)
    : M cstate ref :=
  hit <- cache_get ty ;;
  match hit with
  | Some r => ret r
  | None => convert_miss conv ty
  end.


(** [_convert_ida_type] with a bound [fuel] on the depth of the recursion. *)
Fixpoint convert_fuel (fuel : nat) (ty : handle) : M cstate ref :=
  match fuel with
  | O => diverge
  | S fuel' => convert_body (convert_fuel fuel') ty
  end.

(** [_convert_ida_type(ty, cache)].  Every call that recurses has first put
    [ty] into the cache, so the recursion is never deeper than the number of
    types of the database plus one ([convert_fuel_enough] below). *)
Definition _convert_ida_type (ty : handle) : M cstate ref :=
  convert_fuel (S (size (types db))) ty.

End Convert.

(** ** The session: [get_type] and [get_function] *)

(** The session: the store of IR objects, the registry [_FUNCTIONS] (a
    [WeakValueDictionary]: see [collect]), the identity of the next [Function]
    object and what has been printed. *)
Record world : Type := World {
  w_heap : list node;
  _FUNCTIONS : gmap Z Function;
  w_next : nat;
  w_stdout : list string
}.

(** The garbage collector may drop from the weak registry every entity that
    nothing else refers to; [live] tells which entities are still held. *)
Definition collect (live : Function → bool) (w : world) : world :=
  World (w_heap w) (filter (λ kv, live kv.2 = true) (_FUNCTIONS w))
        (w_next w) (w_stdout w).

(** [try: m  except UnhandledTypeException as e: h e]; every other exception
    passes through. *)
Definition try_except {S A} (m : M S A) (h : string → pyval → M S A)
    : M S A :=
  λ st, match m st with
        | (Raise (UnhandledTypeException msg v), st') => h msg v st'
        | other => other
        end.

(** ["{:x}".format(address)] *)
Definition format_x (z : Z) : string :=
  match z with
  | Z0 => "0"
  | Zpos p => HexString.Raw.of_pos p EmptyString
  | Zneg p => "-" +:+ HexString.Raw.of_pos p EmptyString
  end.

Section Session.
Context (db : ida).

(** [_convert_ida_type(ty, {})]: the conversion with a cache of its own. *)
Definition convert_with_new_cache (ty : handle) : M world ref :=
  λ w, let '(res, st) := _convert_ida_type db ty (CState (w_heap w) ∅) in
       (res, World (heap st) (_FUNCTIONS w) (w_next w) (w_stdout w)).

(** [VoidType()] in the session. *)
Definition new_void : M world ref :=
  λ w, (Ok (length (w_heap w)),
        World (w_heap w ++ [VoidType]) (_FUNCTIONS w) (w_next w) (w_stdout w)).

(** The [tinfo_t] that the two queries of [get_type] leave in [tif]:
    [None] is the default-constructed [tinfo_t()] untouched.  An exception of
    either query is swallowed by the bare [except]. *)
Definition recover_tinfo (ty : pyval) : option handle :=
  match get_tinfo db ty with
  | QRaises => None
  | QReturns true fill => fill
  | QReturns false fill =>
      match guess_tinfo db ty with
      | QRaises => fill
      | QReturns _ (Some h) => Some h
      | QReturns _ None => fill
      end
  end.

(** [tif.empty()] *)
Definition tif_empty (tif : option handle) : bool :=
  match tif with
  | None => true
  | Some h => empty (tinfo_of db h)
  end.

Definition get_type (ty : pyval) : M world ref :=
  match ty with
  | VType r => ret r
  | VFunction f => ret (type f)
  | VTinfo h => convert_with_new_cache h
  | VInt _ | VNone | VStr _ =>
      let tif := recover_tinfo ty in
      match tif with
      | Some h =>
          if negb (tif_empty tif) then convert_with_new_cache h
          else if negb (truthy ty) then new_void
          else raise (UnhandledTypeException
                        "Unrecognized type passed to `Type`." ty)
      | None =>
          if negb (truthy ty) then new_void
          else raise (UnhandledTypeException
                        "Unrecognized type passed to `Type`." ty)
      end
  end.

(** [IDAFunction.name] *)
Definition name (f : Function) : string :=
  let ea := address f in
  if f_has_name db ea then get_func_name db ea else EmptyString.

(** [print(func_type.serialize(arch, {}))] *)
Definition print_serialized (arch : Arch) (func_type : ref) : M world unit :=
  λ w, (Ok tt,
        World (w_heap w) (_FUNCTIONS w) (w_next w)
              (w_stdout w ++ [serialize db arch (w_heap w) func_type])).

(** [address in _FUNCTIONS] and [_FUNCTIONS[address]] *)
Definition registry_get (a : Z) : M world (option Function) :=
  λ w, (Ok (_FUNCTIONS w !! a), w).

(** [func = IDAFunction(arch, address, func_type, ida_func)] followed by
    [_FUNCTIONS[address] = func]. *)
Definition registry_new (arch : Arch) (a : Z) (func_type : ref)
    (ida_func : func_t) : M world Function :=
  λ w, let func := IDAFunction (w_next w) arch a func_type ida_func in
       (Ok func,
        World (w_heap w) (<[a := func]> (_FUNCTIONS w)) (S (w_next w))
              (w_stdout w)).

Definition no_function_msg (a : Z) : string :=
  "No function defined at or containing address " +:+ format_x a.

Definition get_function (arch : Arch) (address : Z) : M world Function :=
  let ida_func :=
    match get_func db address with
    | Some f => Some f
    | None => get_prev_func db address
    end in
  (* Check this function. *)
  match ida_func with
  | None => raise (InvalidFunction (no_function_msg address))
  | Some f =>
      if negb (func_contains db f address) then
        raise (InvalidFunction (no_function_msg address))
      else
        (* Reset to the start of the function, and get the type of the
           function. *)
        let address := start_ea f in
        func_type <-
          try_except (get_type (VInt address))
            (λ msg v,
               raise (InvalidFunction
                        ("Could not assign type to function at address "
                         +:+ format_x address +:+ ": "
                         +:+ exc_str db msg v))) ;;
        print_serialized arch func_type ;;;
        hit <- registry_get address ;;
        match hit with
        | Some func => ret func
        | None => registry_new arch address func_type f
        end
  end.

End Session.

(** ** Architecture detection *)

(** What the host reports: [ida_idp.ph_get_regnames()] and the fields of
    [ida_idaapi.get_inf_structure()] that the code reads. *)
Record host : Type := Host {
  ph_get_regnames : list string;
  is_64bit : bool;
  procName : string
}.

(** [p in s] for strings. *)
Fixpoint is_substring (p s : string) : bool :=
  String.prefix p s ||
  match s with
  | EmptyString => false
  | String _ s' => is_substring p s'
  end.

(** [_guess_architecture].  The second test of the chain reads the global
    name [info]; [globals] are the names bound in the module besides the ones
    the function itself assigns ([reg_names], [inf]), each with the object it
    is bound to.  A name that is not bound raises [NameError]. *)
Definition _guess_architecture (globals : gmap string host) (h : host)
    : result string :=
  let reg_names := ph_get_regnames h in
  let inf := h in
  if bool_decide ("ax" ∈ reg_names) && bool_decide ("xmm0" ∈ reg_names) then
    if is_64bit inf then Ok "amd64" else Ok "x86"
  else
    match globals !! "info" with
    | None => Raise (NameError "info")
    | Some info =>
        if is_substring "ARM" (procName info) then
          if is_64bit inf then Ok "aarch64"
          else Raise (UnhandledArchitectureType
                        ("Unrecognized 32-bit ARM architecture: "
                         +:+ procName inf))
        else Raise (UnhandledArchitectureType
                      ("Unrecognized archictecture: " +:+ procName inf))
    end.

(** The names that ida.py binds at module level: its imports, its functions,
    [IDAFunction] and [_FUNCTIONS].  None of them is [info]. *)
Definition ida_py_globals : gmap string host := ∅.

Definition get_arch (globals : gmap string host) (h : host) : result Arch :=
  match _guess_architecture globals h with
  | Ok name =>
      if String.eqb name "amd64" then Ok AMD64Arch
      else if String.eqb name "x86" then Ok X86Arch
      else if String.eqb name "aarch64" then Ok AArch64Arch
      else Raise (UnhandledArchitectureType
                    ("Missing architecture object type for architecture '"
                     +:+ name +:+ "'"))
  | Raise e => Raise e
  | OutOfFuel => OutOfFuel
  end.

(** ** Operating system detection *)

(** Modelled from the spec: the operating system classes of os.py, which is
    not under src/; [get_os] constructs one object of each. *)
Inductive OS : Type := LinuxOS | MacOS | WindowsOS.

(** What [_guess_os] and [get_os] can raise: [UnhandledOSException] of exc.py,
    and Python's [AttributeError] when a module has no attribute of the name
    read. *)
Inductive os_exc : Type :=
  | UnhandledOSException (msg : string)
  | AttributeError (name : string).

(** What the host reports to [_guess_os]: [ida_nalt.get_abi_name()], the
    [filetype] of [ida_idaapi.get_inf_structure()], and the integer constants
    that the module [ida_ida] defines, by name. *)
Record os_host : Type := OsHost {
  get_abi_name : string;
  filetype : Z;
  ida_ida : gmap string Z
}.

(** A tuple display [(m.a, m.b, ...)]: the attributes are read from left to
    right, and the first one that the module does not have raises. *)
Fixpoint read_attrs (m : gmap string Z) (names : list string)
    : os_exc + list Z :=
  match names with
  | [] => inr []
  | n :: ns =>
      match m !! n with
      | None => inl (AttributeError n)
      | Some v =>
          match read_attrs m ns with
          | inl e => inl e
          | inr vs => inr (v :: vs)
          end
      end
  end.

Definition _guess_os (h : os_host) : os_exc + string :=
  let abi_name := get_abi_name h in
  if String.eqb "OSX" abi_name then inr "macos"
  else
    let file_type := filetype h in
    match read_attrs (ida_ida h) ["f_ELF"; "g_AOUT"; "f_COFF"] with
    | inl e => inl e
    | inr linux_types =>
        if bool_decide (file_type ∈ linux_types) then inr "linux"
        else
          match read_attrs (ida_ida h) ["g_MACHO"] with
          | inl e => inl e
          | inr macho_types =>
              if bool_decide (file_type ∈ macho_types) then inr "macos"
              else
                match read_attrs (ida_ida h)
                        ["g_PE"; "f_EXE"; "f_EXE_old"; "f_COM"; "f_COM_old"]
                with
                | inl e => inl e
                | inr windows_types =>
                    if bool_decide (file_type ∈ windows_types)
                    then inr "windows"
                    else inl (UnhandledOSException "Unrecognized OS type")
                end
          end
    end.

Definition get_os (h : os_host) : os_exc + OS :=
  match _guess_os h with
  | inl e => inl e
  | inr name =>
      if String.eqb name "linux" then inr LinuxOS
      else if String.eqb name "macos" then inr MacOS
      else if String.eqb name "windows" then inr WindowsOS
      else inl (UnhandledOSException
                  ("Missing operating system object type for OS '"
                   +:+ name +:+ "'"))
  end.

(** * The vocabulary of the statements *)

(** ** Properties of computations *)

(** The types of the database that are not yet in the cache. *)
Definition todo (db : ida) (st : cstate) : nat :=
  size (dom (types db) ∖ dom (cache st)).

(** Two computations that, from every state with fewer than [n] types left
    to do, do the same, do not run out of fuel and only add to the cache. *)
Definition agree (db : ida) (n : nat) {A} (m1 m2 : M cstate A) : Prop :=
  ∀ st, (todo db st < n)%nat →
    m1 st = m2 st ∧ fst (m1 st) ≠ OutOfFuel ∧
    dom (cache st) ⊆ dom (cache (snd (m1 st))).

(** A computation that keeps the first [L] objects of the store as they are
    and never changes an entry of the cache. *)
Definition keeps (L : nat) {A} (m : M cstate A) : Prop :=
  ∀ st, (L ≤ length (heap st))%nat →
    (L ≤ length (heap (m st).2))%nat ∧
    (∀ i, (i < L)%nat → heap (m st).2 !! i = heap st !! i) ∧
    cache st ⊆ cache (m st).2.

(** Both return, or both raise the same exception. *)
Definition same_status {A B} (r1 : result A) (r2 : result B) : Prop :=
  match r1, r2 with
  | Ok _, Ok _ => True
  | Raise e1, Raise e2 => e1 = e2
  | OutOfFuel, OutOfFuel => True
  | _, _ => False
  end.

(** Two computations that, from states whose caches have the same keys, end
    the same way in states whose caches have the same keys. *)
Definition sim {A B} (m1 : M cstate A) (m2 : M cstate B) : Prop :=
  ∀ st1 st2, dom (cache st1) = dom (cache st2) →
    same_status (m1 st1).1 (m2 st2).1 ∧
    dom (cache (m1 st1).2) = dom (cache (m2 st2).2).



(** ** The cases of the classification chain *)

(** [t] is not taken by the first case (empty or void). *)
Definition not_void (t : tinfo) : bool := negb (empty t || is_void t).

(** [t] reaches the pointer case, the function case, the array case. *)
Definition pointer_case (t : tinfo) : bool :=
  not_void t && is_paf t && is_ptr t.
Definition function_case (t : tinfo) : bool :=
  not_void t && is_paf t && negb (is_ptr t) && is_func t.
Definition array_case (t : tinfo) : bool :=
  not_void t && is_paf t && negb (is_ptr t) && negb (is_func t) && is_array t.

(** [t] is past the pointer/array/function, vector and
    structure/union/enumerator cases. *)
Definition scalar_case (t : tinfo) : bool :=
  not_void t && negb (is_paf t) && negb (is_sse_type t) && negb (is_sue t).

Definition struct_case (t : tinfo) : bool :=
  not_void t && negb (is_paf t) && negb (is_sse_type t) && is_sue t &&
  is_udt t && is_struct t.

Definition bool_case (t : tinfo) : bool := scalar_case t && is_bool t.
Definition integral_case (t : tinfo) : bool :=
  scalar_case t && negb (is_bool t) && is_integral t.
Definition floating_case (t : tinfo) : bool :=
  scalar_case t && negb (is_bool t) && negb (is_integral t) && is_floating t.
Definition complex_case (t : tinfo) : bool :=
  scalar_case t && negb (is_bool t) && negb (is_integral t) &&
  negb (is_floating t) && is_complex t.

(** The state in which the children of [ty] are converted: the new node [nd]
    of [ty] is the last object of the store and is already in the cache. *)
Definition entered (st : cstate) (ty : handle) (nd : node) : cstate :=
  CState (heap st ++ [nd]) (<[ty := length (heap st)]> (cache st)).

(** ** A small host for the examples *)

(** The shapes of foreign type that the examples use, and the answers that a
    [tinfo_t] of each shape gives. *)
Inductive kind : Type :=
  | KVoid
  | KPtr (pointee : handle)
  | KFunc (rettype : handle) (params : list handle) (vararg : bool)
          (purged : option Z)
  | KArray (element : handle) (nelems : Z)
  | KStruct (members : list handle)
  | KBool
  | KInt (bytes : Z) (signed : bool)
  | KFloat
  | KDouble
  | KLongDouble (unpadded : Z)
  | KComplex.

Definition of_kind (k : kind) : tinfo :=
  let int w sg := match k with
                  | KInt w' sg' => (w' =? w) && Bool.eqb sg' sg
                  | _ => false
                  end in
  {| empty := false;
     is_void := match k with KVoid => true | _ => false end;
     is_paf := match k with KPtr _ | KFunc _ _ _ _ | KArray _ _ => true
               | _ => false end;
     is_ptr := match k with KPtr _ => true | _ => false end;
     is_func := match k with KFunc _ _ _ _ => true | _ => false end;
     is_array := match k with KArray _ _ => true | _ => false end;
     is_sse_type := false;
     is_sue := match k with KStruct _ => true | _ => false end;
     is_udt := match k with KStruct _ => true | _ => false end;
     is_struct := match k with KStruct _ => true | _ => false end;
     is_enum := false;
     is_bool := match k with KBool => true | _ => false end;
     is_integral := match k with KBool | KInt _ _ => true | _ => false end;
     is_uint128 := int 16 false; is_int128 := int 16 true;
     is_uint64 := int 8 false; is_int64 := int 8 true;
     is_uint32 := int 4 false; is_int32 := int 4 true;
     is_uint16 := int 2 false; is_int16 := int 2 true;
     is_uchar := int 1 false; is_char := int 1 true;
     is_floating := match k with KFloat | KDouble | KLongDouble _ => true
                    | _ => false end;
     is_ldouble := match k with KLongDouble _ => true | _ => false end;
     is_double := match k with KDouble => true | _ => false end;
     is_float := match k with KFloat => true | _ => false end;
     is_complex := match k with KComplex => true | _ => false end;
     is_typeref := false;
     get_pointed_object := match k with KPtr p => p | _ => 0%nat end;
     get_rettype := match k with KFunc r _ _ _ => r | _ => 0%nat end;
     args := match k with KFunc _ ps _ _ => ps | _ => [] end;
     is_vararg_cc := match k with KFunc _ _ va _ => va | _ => false end;
     is_purging_cc := match k with KFunc _ _ _ (Some _) => true
                      | _ => false end;
     calc_purged_bytes := match k with KFunc _ _ _ (Some n) => n | _ => 0 end;
     get_array_element := match k with KArray e _ => e | _ => 0%nat end;
     get_array_nelems := match k with KArray _ n => n | _ => 0 end;
     get_size := 0;
     get_udt_nmembers := match k with KStruct ms => length ms | _ => 0%nat end;
     udt_members := match k with KStruct ms => ms | _ => [] end;
     get_enum_base_type := 0%nat;
     get_unpadded_size := match k with KLongDouble n => n | _ => 0 end;
     get_realtype := 0%nat;
     dstr := match k with
             | KVoid => "void" | KPtr _ => "ptr" | KFunc _ _ _ _ => "func"
             | KArray _ _ => "array" | KStruct _ => "struct"
             | KBool => "bool" | KInt _ _ => "int" | KFloat => "float"
             | KDouble => "double" | KLongDouble _ => "long double"
             | KComplex => "complex double"
             end |}.

(** [struct node { struct node *next; }] reached through [struct node *]
    (types 1, 2 and 3), some scalars, and
    [int __stdcall f(struct node *, unsigned, bool, ...)] (type 8). *)
Definition ex_types : gmap nat tinfo :=
  list_to_map
    [ (1%nat, of_kind (KPtr 2)); (2%nat, of_kind (KStruct [3%nat]));
      (3%nat, of_kind (KPtr 2)); (4%nat, of_kind KVoid);
      (5%nat, of_kind KBool); (6%nat, of_kind (KInt 4 false));
      (7%nat, of_kind KComplex);
      (8%nat, of_kind (KFunc 9 [1%nat; 6%nat; 5%nat] true (Some 12)));
      (9%nat, of_kind (KInt 4 true)); (10%nat, of_kind KDouble) ].

(** One function, at [0x1000..0x1040), whose type is type 8; a second one, at
    [0x2000..0x2008), whose type is the complex type 7. *)
Definition ex_db : ida :=
  {| types := ex_types;
     get_func := λ a,
       if (4096 <=? a) && (a <? 4160) then Some (Func_t 4096 4160)
       else if (8192 <=? a) && (a <? 8200) then Some (Func_t 8192 8200)
       else None;
     get_prev_func := λ a,
       if 8192 <? a then Some (Func_t 8192 8200)
       else if 4096 <? a then Some (Func_t 4096 4160)
       else None;
     func_contains := λ f a, (start_ea f <=? a) && (a <? end_ea f);
     get_tinfo := λ v,
       match v with
       | VInt 4096 => QReturns true (Some 8%nat)
       | VInt 8192 => QReturns true (Some 7%nat)
       | _ => QReturns false None
       end;
     guess_tinfo := λ _, QReturns false None;
     f_has_name := λ a, a =? 4096;
     get_func_name := λ _, "f";
     serialize := λ _ _ _, "(type)";
     exc_str := λ msg _, msg |}.

Definition ex_world : world := World [] ∅ 0 [].

(** ** The primitive types, the function types, the integer precedence *)

Inductive width : Type := W1 | W2 | W4 | W8 | W16.

Definition bytes (w : width) : Z :=
  match w with W1 => 1 | W2 => 2 | W4 => 4 | W8 => 8 | W16 => 16 end.

Inductive primitive : Type :=
  | PVoid
  | PBool
  | PInteger (w : width) (signed : bool)
  | PFloat
  | PDouble
  | PLongDouble.

(** The answers of [t] to the ten integer predicates and to the three
    floating point predicates, in the order in which the source asks. *)
Definition int_answers (t : tinfo) : list bool :=
  [is_uint128 t; is_int128 t; is_uint64 t; is_int64 t; is_uint32 t;
   is_int32 t; is_uint16 t; is_int16 t; is_uchar t; is_char t].

Definition float_answers (t : tinfo) : list bool :=
  [is_ldouble t; is_double t; is_float t].

Definition int_index (w : width) (signed : bool) : nat :=
  (match w with W16 => 0 | W8 => 2 | W4 => 4 | W2 => 6 | W1 => 8 end
   + if signed then 1 else 0)%nat.

(** Exactly the [i]-th answer is positive. *)
Definition only (i : nat) (answers : list bool) : bool :=
  bool_decide (answers = <[i := true]> (replicate (length answers) false)).

(** [t] is the foreign type of the primitive [p]: it reaches the case of [p]
    and, among the integer (floating point) predicates, answers exactly the
    one of [p]. *)
Definition is_primitive (p : primitive) (t : tinfo) : bool :=
  match p with
  | PVoid => empty t || is_void t
  | PBool => bool_case t
  | PInteger w sg => integral_case t && only (int_index w sg) (int_answers t)
  | PLongDouble => floating_case t && only 0 (float_answers t)
  | PDouble => floating_case t && only 1 (float_answers t)
  | PFloat => floating_case t && only 2 (float_answers t)
  end.

(** The IR leaf of the primitive [p]. *)
Definition leaf (p : primitive) (t : tinfo) : node :=
  match p with
  | PVoid => VoidType
  | PBool => BoolType
  | PInteger w sg => IntegerType (bytes w) sg
  | PLongDouble => FloatingPointType (get_unpadded_size t)
  | PDouble => FloatingPointType 8
  | PFloat => FloatingPointType 4
  end.

(** The parameter loop, when every conversion returns: the parameters are
    converted one after the other, each in the state that the previous one
    left, and each new node is appended to the parameters of [r]. *)
Inductive params_converted (db : ida) (r : ref)
    : list handle → cstate → list ref → cstate → Prop :=
  | params_nil st : params_converted db r [] st [] st
  | params_cons a l st p st1 ps st2 :
      _convert_ida_type db a st = (Ok p, st1) →
      params_converted db r l
        (CState (alter (add_parameter_type p) r (heap st1)) (cache st1))
        ps st2 →
      params_converted db r (a :: l) st (p :: ps) st2.

(** The precedence list of the specification (section 4.3, step f): each
    predicate with the leaf it selects, widest first, unsigned before signed. *)
Definition integral_precedence : list ((tinfo → bool) * node) :=
  [ (is_uint128, IntegerType 16 false); (is_int128, IntegerType 16 true);
    (is_uint64, IntegerType 8 false); (is_int64, IntegerType 8 true);
    (is_uint32, IntegerType 4 false); (is_int32, IntegerType 4 true);
    (is_uint16, IntegerType 2 false); (is_int16, IntegerType 2 true);
    (is_uchar, IntegerType 1 false); (is_char, IntegerType 1 true) ].

(** The leaf of the first predicate of the list that [t] answers positively. *)
Definition classify_integral (t : tinfo) : option node :=
  snd <$> List.find (λ c, c.1 t) integral_precedence.

(** A host with one type, which is integral and answers both [is_uint64] and
    [is_int32] (the sixteenth and the nineteenth answer): the wider one
    wins. *)
Definition ex_overlap : ida :=
  {| types := {[ 1%nat := Tinfo false false false false false false false
                   false false false false false true
                   false false true false false true false false false false
                   false false false false false false
                   0%nat 0%nat [] false false 0 0%nat 0 0 0%nat [] 0%nat 0
                   0%nat "__int64" ]};
     get_func := get_func ex_db; get_prev_func := get_prev_func ex_db;
     func_contains := func_contains ex_db; get_tinfo := get_tinfo ex_db;
     guess_tinfo := guess_tinfo ex_db; f_has_name := f_has_name ex_db;
     get_func_name := get_func_name ex_db; serialize := serialize ex_db;
     exc_str := exc_str ex_db |}.

(** A computation that puts no entry for [ty] into the cache. *)
Definition skips (ty : handle) {A} (m : M cstate A) : Prop :=
  ∀ st, cache st !! ty = None → cache (m st).2 !! ty = None.

(** ** [get_type] and [get_function] *)

(** The values that [get_type] takes for an address: neither a [Type], a
    [Function] nor a [tinfo_t]. *)
Definition address_like (ty : pyval) : bool :=
  match ty with
  | VInt _ | VNone | VStr _ => true
  | VType _ | VFunction _ | VTinfo _ => false
  end.



(** The region on which [get_function] goes on: the candidate of its first
    three lines, if it passes the containment check. *)
Definition checked_region (db : ida) (a : Z) : option func_t :=
  match match get_func db a with
        | Some f => Some f
        | None => get_prev_func db a
        end with
  | Some f => if func_contains db f a then Some f else None
  | None => None
  end.

(** Every entity of the registry is stored under its own address. *)
Definition registry_ok (w : world) : Prop :=
  ∀ k fn, _FUNCTIONS w !! k = Some fn → address fn = k.

(** What [get_function] does once the type of the function is known: print,
    then look the start address up in the registry. *)
Definition register (db : ida) (arch : Arch) (f : func_t) (ft : ref)
    (w1 : world) : result Function * world :=
  let out := w_stdout w1 ++ [serialize db arch (w_heap w1) ft] in
  match _FUNCTIONS w1 !! start_ea f with
  | Some fn => (Ok fn, World (w_heap w1) (_FUNCTIONS w1) (w_next w1) out)
  | None =>
      let fn := IDAFunction (w_next w1) arch (start_ea f) ft f in
      (Ok fn, World (w_heap w1) (<[start_ea f := fn]> (_FUNCTIONS w1))
                    (S (w_next w1)) out)
  end.

(** ** Detection of the operating system and of the architecture *)

(** The name of the operating system object. *)
Definition os_name (o : OS) : string :=
  match o with
  | LinuxOS => "linux"
  | MacOS => "macos"
  | WindowsOS => "windows"
  end.

(** The name of the architecture object. *)
Definition arch_name (a : Arch) : string :=
  match a with
  | AMD64Arch => "amd64"
  | X86Arch => "x86"
  | AArch64Arch => "aarch64"
  end.

(** ** The cache *)

(** [t] reaches one of the cases that put the new node into the cache
    ([cache[ty] = ret]): pointer, function, array, vector, structure or
    union, enumerator, type alias. *)
Definition caching_case (t : tinfo) : bool :=
  if empty t || is_void t then false
  else if is_paf t then is_ptr t || is_func t || is_array t
  else if is_sse_type t then true
  else if is_sue t then is_udt t || is_enum t
  else if is_bool t then false
  else if is_integral t then false
  else if is_floating t then false
  else if is_complex t then false
  else is_typeref t.

(** A computation that returns nothing but [r]. *)
Definition returns (r : ref) (m : M cstate ref) : Prop :=
  ∀ st a st', m st = (Ok a, st') → a = r.

(** A computation that, however it ends, leaves [ty] in the cache with the
    node that was the next one of the store when it started, and returns
    nothing but that node. *)
Definition caches (ty : handle) (m : M cstate ref) : Prop :=
  ∀ st, cache (m st).2 !! ty = Some (length (heap st)) ∧
        ∀ a, (m st).1 = Ok a → a = length (heap st).

(** A computation that does one of two things: it appends one node to the
    store and returns it, or it raises [UnhandledTypeException] for [ty]
    itself and leaves the state as it was. *)
Definition leaf_or_fails (ty : handle) (m : M cstate ref) : Prop :=
  ∀ st,
    (∃ nd, m st = (Ok (length (heap st)),
                   CState (heap st ++ [nd]) (cache st))) ∨
    (∃ msg, m st = (Raise (UnhandledTypeException msg (VTinfo ty)), st)).

(** The values that [get_type] converts: a [tinfo_t] or an address. *)
Definition converted_value (x : pyval) : bool :=
  match x with
  | VType _ | VFunction _ => false
  | VTinfo _ | VInt _ | VNone | VStr _ => true
  end.

(** ** The nodes that a conversion builds *)

(** [t] reaches the vector case, the structure-or-union case, the enumerator
    case, the type alias case. *)
Definition vector_case (t : tinfo) : bool :=
  not_void t && negb (is_paf t) && is_sse_type t.
Definition udt_case (t : tinfo) : bool :=
  not_void t && negb (is_paf t) && negb (is_sse_type t) && is_sue t &&
  is_udt t.
Definition enum_case (t : tinfo) : bool :=
  not_void t && negb (is_paf t) && negb (is_sse_type t) && is_sue t &&
  negb (is_udt t) && is_enum t.
Definition typeref_case (t : tinfo) : bool :=
  scalar_case t && negb (is_bool t) && negb (is_integral t) &&
  negb (is_floating t) && negb (is_complex t) && is_typeref t.

(** The cases with exactly one child: the node as it is constructed, the
    child, and the node once the setters have been called with the node [e]
    of the child. *)
Definition one_child (t : tinfo) : option (node * handle * (ref → node)) :=
  if pointer_case t then
    Some (PointerType None, get_pointed_object t, λ e, PointerType (Some e))
  else if array_case t then
    Some (ArrayType None None, get_array_element t,
          λ e, ArrayType (Some e) (Some (get_array_nelems t)))
  else if enum_case t then
    Some (EnumType None, get_enum_base_type t, λ e, EnumType (Some e))
  else if typeref_case t then
    Some (TypedefType None, get_realtype t, λ e, TypedefType (Some e))
  else None.

(** The member loop, when every conversion returns: the members are
    converted one after the other, each in the state that the previous one
    left, and each new node is appended to the elements of [r]. *)
Inductive elements_converted (db : ida) (r : ref)
    : list handle → cstate → list ref → cstate → Prop :=
  | elements_nil st : elements_converted db r [] st [] st
  | elements_cons m l st e st1 es st2 :
      _convert_ida_type db m st = (Ok e, st1) →
      elements_converted db r l
        (CState (alter (add_element_type e) r (heap st1)) (cache st1))
        es st2 →
      elements_converted db r (m :: l) st (e :: es) st2.

(** The floating point predicates in the order in which the source asks
    them, each with the node it selects. *)
Definition floating_precedence : list ((tinfo → bool) * (tinfo → node)) :=
  [ (is_ldouble, λ t, FloatingPointType (get_unpadded_size t));
    (is_double, λ _, FloatingPointType 8);
    (is_float, λ _, FloatingPointType 4) ].

Definition classify_floating (t : tinfo) : option node :=
  (λ c, c.2 t) <$> List.find (λ c, c.1 t) floating_precedence.

(** A host with a vector type (1), a union (2) that reports three members but
    can enumerate two, an array of zero elements (3), an alias (4) of an
    enumerator (5) over the integer (6), and a floating point type that
    answers both [is_ldouble] and [is_double] (7). *)
Definition ex_nodes : ida :=
  let base := of_kind (KInt 4 false) in
  let with_flags (sse sue udt enum typeref floating ldouble double : bool)
        (size : Z) (n : nat) (ms : list handle) (e r : handle) :=
    Tinfo false false false false false false sse sue udt false enum false
          false false false false false false false false false false false
          floating ldouble double false false typeref
          0%nat 0%nat [] false false 0 0%nat 0 size n ms e 10 r "t" in
  {| types :=
       list_to_map
         [ (1%nat, with_flags true false false false false false false false
                     16 0%nat [] 0%nat 0%nat);
           (2%nat, with_flags false true true false false false false false
                     0 3%nat [6%nat; 3%nat] 0%nat 0%nat);
           (3%nat, of_kind (KArray 6 0));
           (4%nat, with_flags false false false false true false false false
                     0 0%nat [] 0%nat 5%nat);
           (5%nat, with_flags false true false true false false false false
                     0 0%nat [] 6%nat 0%nat);
           (6%nat, base);
           (7%nat, with_flags false false false false false true true true
                     0 0%nat [] 0%nat 0%nat) ];
     get_func := get_func ex_db; get_prev_func := get_prev_func ex_db;
     func_contains := func_contains ex_db; get_tinfo := get_tinfo ex_db;
     guess_tinfo := guess_tinfo ex_db; f_has_name := f_has_name ex_db;
     get_func_name := get_func_name ex_db; serialize := serialize ex_db;
     exc_str := exc_str ex_db |}.

(** ** Well-formed stores *)

(** The references that a node holds. *)
Definition refs_of (nd : node) : list ref :=
  match nd with
  | VoidType | BoolType | IntegerType _ _ | FloatingPointType _ => []
  | PointerType e | EnumType e | TypedefType e => option_list e
  | ArrayType e _ | VectorType e _ => option_list e
  | FunctionType r ps _ _ => option_list r ++ ps
  | StructureType es | UnionType es => es
  end.

(** The fields that the constructor of the class leaves unset and that the
    case of the class always sets (the element type, the number of elements,
    the return type, the underlying type) are set. *)
Definition complete (nd : node) : bool :=
  match nd with
  | PointerType (Some _) | EnumType (Some _) | TypedefType (Some _) => true
  | ArrayType (Some _) (Some _) | VectorType (Some _) (Some _) => true
  | FunctionType (Some _) _ _ _ => true
  | PointerType None | EnumType None | TypedefType None => false
  | ArrayType _ _ | VectorType _ _ => false
  | FunctionType None _ _ _ => false
  | VoidType | BoolType | IntegerType _ _ | FloatingPointType _ => true
  | StructureType _ | UnionType _ => true
  end.

(** The nodes of the store from the [lo]-th on refer to nodes of the store
    from the [lo]-th on only. *)
Definition closed_from (lo : nat) (h : list node) : Prop :=
  ∀ i nd r, (lo ≤ i)%nat → h !! i = Some nd → r ∈ refs_of nd →
    (lo ≤ r < length h)%nat.

(** Every entry of the cache is a node of the store from the [lo]-th on. *)
Definition cache_within (lo : nat) (st : cstate) : Prop :=
  ∀ k r, cache st !! k = Some r → (lo ≤ r < length (heap st))%nat.

(** The nodes of the store from the [N]-th on are complete. *)
Definition complete_from (N : nat) (h : list node) : Prop :=
  ∀ i nd, (N ≤ i)%nat → h !! i = Some nd → complete nd = true.


(** The state while the node [r] is under construction: the store is closed,
    the cache points into it, the node [r] satisfies [P], and the nodes
    after [r] are complete. *)
Definition building (lo : nat) (r : ref) (P : node → Prop) (st : cstate)
    : Prop :=
  closed_from lo (heap st) ∧ cache_within lo st ∧
  complete_from (S r) (heap st) ∧ (lo ≤ r)%nat ∧
  ∃ nd, heap st !! r = Some nd ∧ P nd.

(** Partial correctness: from a state with [P], if the computation returns
    [a] in the state [st'], then [Q a st']. *)
Definition hoare {A} (P : cstate → Prop) (m : M cstate A)
    (Q : A → cstate → Prop) : Prop :=
  ∀ st a st', P st → m st = (Ok a, st') → Q a st'.

(** What a returning conversion guarantees, from a state whose store is
    closed from [lo] on and whose cache is within the store from [lo] on:
    the same of the state it leaves; its result is such a node; and the
    nodes it has added are complete. *)
Definition conv_ok (lo : nat) (conv : handle → M cstate ref) : Prop :=
  ∀ ty st r st',
    (lo ≤ length (heap st))%nat →
    closed_from lo (heap st) → cache_within lo st →
    conv ty st = (Ok r, st') →
    closed_from lo (heap st') ∧ cache_within lo st' ∧
    (lo ≤ r < length (heap st'))%nat ∧
    complete_from (length (heap st)) (heap st').

(** The node after the setter [f], when it satisfied [P] before. *)
Definition after (f : node → node) (P : node → Prop) (nd' : node) : Prop :=
  ∃ nd, P nd ∧ nd' = f nd.

(** ** The failures of a conversion *)



(** ** The same graph in another store *)

(** The node [nd] with every reference moved [n] places up. *)
Definition shift_node (n : nat) (nd : node) : node :=
  let sh := λ r : ref, (n + r)%nat in
  match nd with
  | VoidType => VoidType
  | BoolType => BoolType
  | IntegerType s sg => IntegerType s sg
  | FloatingPointType s => FloatingPointType s
  | PointerType e => PointerType (sh <$> e)
  | ArrayType e k => ArrayType (sh <$> e) k
  | VectorType e k => VectorType (sh <$> e) k
  | FunctionType r ps va po => FunctionType (sh <$> r) (sh <$> ps) va po
  | StructureType es => StructureType (sh <$> es)
  | UnionType es => UnionType (sh <$> es)
  | EnumType u => EnumType (sh <$> u)
  | TypedefType u => TypedefType (sh <$> u)
  end.

Definition shift_result (n : nat) (res : result ref) : result ref :=
  match res with
  | Ok r => Ok (n + r)%nat
  | Raise e => Raise e
  | OutOfFuel => OutOfFuel
  end.

(** The state [st2] is the state [st1] put after the nodes [h]. *)
Definition shifted (h : list node) (st1 st2 : cstate) : Prop :=
  heap st2 = h ++ (shift_node (length h) <$> heap st1) ∧
  cache st2 = (λ r : ref, (length h + r)%nat) <$> cache st1.

(** Two computations that, from a state and the same state put after [h],
    end the same way, with results related by [Q], in a state and the same
    state put after [h]. *)
Definition shifts (h : list node) {A} (Q : A → A → Prop)
    (m1 m2 : M cstate A) : Prop :=
  ∀ st1 st2, shifted h st1 st2 →
    shifted h (m1 st1).2 (m2 st2).2 ∧
    match (m1 st1).1, (m2 st2).1 with
    | Ok a1, Ok a2 => Q a1 a2
    | Raise e1, Raise e2 => e1 = e2
    | OutOfFuel, OutOfFuel => True
    | _, _ => False
    end.

(** * Facts about the conversion *)

Lemma tinfo_of_Some db ty t : types db !! ty = Some t → tinfo_of db ty = t.
Proof. intros H. unfold tinfo_of. by rewrite H. Qed.

Lemma tinfo_of_None db ty : types db !! ty = None → tinfo_of db ty = tinfo_t.
Proof. intros H. unfold tinfo_of. by rewrite H. Qed.

(** ** Termination of the conversion *)

Section Termination.
Context (db : ida).
Local Open Scope nat_scope.

Lemma convert_body_hit conv ty st r :
  cache st !! ty = Some r → convert_body db conv ty st = (Ok r, st).
Proof. intros H. unfold convert_body, bind, cache_get. by rewrite H. Qed.

Lemma convert_body_miss conv ty st :
  cache st !! ty = None →
  convert_body db conv ty st = convert_miss db conv ty st.
Proof. intros H. unfold convert_body, bind, cache_get. by rewrite H. Qed.

Lemma todo_mono st st' :
  dom (cache st) ⊆ dom (cache st') → todo db st' ≤ todo db st.
Proof.
  intros Hsub. unfold todo. apply subseteq_size.
  intros x [Hx Hn]%elem_of_difference. apply elem_of_difference.
  split; [done|]. intros Hc. apply Hn, Hsub, Hc.
Qed.

Lemma todo_bound st : todo db st ≤ size (types db).
Proof.
  unfold todo. rewrite <- size_dom. apply subseteq_size.
  intros x [Hx _]%elem_of_difference. done.
Qed.

Lemma todo_insert st ty r :
  cache st !! ty = None → is_Some (types db !! ty) →
  S (todo db (CState (heap st) (<[ty := r]> (cache st)))) = todo db st.
Proof.
  intros Hc Ht. unfold todo. simpl. rewrite dom_insert_L.
  assert (Hin : ty ∈ dom (types db) ∖ dom (cache st)).
  { apply elem_of_difference. split; [by apply elem_of_dom|].
    by apply not_elem_of_dom. }
  replace (dom (types db) ∖ ({[ty]} ∪ dom (cache st)))
    with ((dom (types db) ∖ dom (cache st)) ∖ {[ty]}) by set_solver.
  rewrite size_difference by set_solver.
  rewrite size_singleton.
  assert (0 < size (dom (types db) ∖ dom (cache st))).
  { destruct (decide (size (dom (types db) ∖ dom (cache st)) = 0)) as [E|];
      [|lia].
    apply size_empty_inv in E. set_solver. }
  lia.
Qed.

Lemma agree_bind n {A B} (m1 m2 : M cstate A) (k1 k2 : A → M cstate B) :
  agree db n m1 m2 → (∀ a, agree db n (k1 a) (k2 a)) →
  agree db n (bind m1 k1) (bind m2 k2).
Proof.
  intros Hm Hk st Hst. destruct (Hm st Hst) as (E & NF & D).
  unfold bind. rewrite <- E.
  destruct (m1 st) as [[a | e |] st1]; simpl in *.
  - assert (Hst1 : todo db st1 < n) by (pose proof (todo_mono _ _ D); lia).
    destruct (Hk a st1 Hst1) as (E' & NF' & D').
    split; [done|]. split; [done|]. set_solver.
  - done.
  - done.
Qed.

Lemma agree_ret n {A} (a : A) : agree db n (ret a) (ret a).
Proof. intros st _. simpl. done. Qed.

Lemma agree_raise n {A} e : agree db n (@raise cstate A e) (raise e).
Proof. intros st _. simpl. done. Qed.

Lemma agree_alloc n nd : agree db n (alloc nd) (alloc nd).
Proof. intros st _. simpl. done. Qed.

Lemma agree_update n r f : agree db n (update r f) (update r f).
Proof. intros st _. simpl. done. Qed.

Lemma agree_if n {A} (b : bool) (m1 m2 m1' m2' : M cstate A) :
  agree db n m1 m1' → agree db n m2 m2' →
  agree db n (if b then m1 else m2) (if b then m1' else m2').
Proof. by destruct b. Qed.

Lemma agree_add_parameters n conv1 conv2 r l :
  (∀ ty, agree db n (conv1 ty) (conv2 ty)) →
  agree db n (add_parameters conv1 r l) (add_parameters conv2 r l).
Proof.
  intros Hc. induction l as [|a l IH]; simpl.
  - apply agree_ret.
  - apply agree_bind; [apply Hc|]. intros p.
    apply agree_bind; [apply agree_update|]. intros _. apply IH.
Qed.

Lemma agree_add_members n conv1 conv2 ms r k i :
  (∀ ty, agree db n (conv1 ty) (conv2 ty)) →
  agree db n (add_members conv1 ms r k i) (add_members conv2 ms r k i).
Proof.
  intros Hc. revert i. induction k as [|k IH]; intros i; simpl.
  - apply agree_ret.
  - destruct (ms !! i); [|apply agree_ret].
    apply agree_bind; [apply Hc|]. intros e.
    apply agree_bind; [apply agree_update|]. intros _. apply IH.
Qed.

(** Allocating the node of [ty] and putting it into the cache leaves one
    type fewer to do. *)
Lemma agree_cached n {A} nd ty (k1 k2 : ref → M cstate A) st :
  (∀ r, agree db n (k1 r) (k2 r)) →
  todo db st < S n → cache st !! ty = None → is_Some (types db !! ty) →
  let m k := (r <- alloc nd ;; cache_set ty r ;;; k r)%py in
  m k1 st = m k2 st ∧ fst (m k1 st) ≠ OutOfFuel ∧
  dom (cache st) ⊆ dom (cache (snd (m k1 st))).
Proof.
  intros Hk Hst Hc Ht. cbv zeta. unfold bind, alloc, cache_set. simpl.
  set (st1 := CState (heap st ++ [nd]) (<[ty:=length (heap st)]> (cache st))).
  assert (Hst1 : todo db st1 < n).
  { pose proof (todo_insert st ty (length (heap st)) Hc Ht) as E.
    unfold todo in *. simpl in *. lia. }
  destruct (Hk (length (heap st)) st1 Hst1) as (E & NF & D).
  split; [done|]. split; [done|].
  etrans; [|exact D]. subst st1. simpl. rewrite dom_insert_L. set_solver.
Qed.

Ltac agree_tac Hc :=
  repeat first
    [ apply agree_ret | apply agree_raise | apply agree_alloc
    | apply agree_update | apply Hc
    | apply agree_add_parameters | apply agree_add_members
    | apply agree_if
    | (apply agree_bind; [|intros ?]) ].

Ltac agree_leaf := simpl; split; [reflexivity|]; split; [discriminate|done].

(** One unfolding of the body: if the recursive calls agree from states with
    fewer than [n] types to do, the bodies agree from states with at most
    [n]. *)
Lemma convert_body_agree n conv1 conv2 :
  (∀ ty, agree db n (conv1 ty) (conv2 ty)) →
  ∀ ty, agree db (S n) (convert_body db conv1 ty) (convert_body db conv2 ty).
Proof.
  intros Hc ty st Hst.
  destruct (cache st !! ty) as [r|] eqn:Hhit.
  { rewrite !(convert_body_hit _ _ _ _ Hhit). agree_leaf. }
  rewrite !(convert_body_miss _ _ _ Hhit).
  unfold convert_miss. cbv zeta.
  destruct (types db !! ty) as [t|] eqn:Ht;
    [rewrite (tinfo_of_Some _ _ _ Ht)
    |rewrite (tinfo_of_None _ _ Ht); simpl; agree_leaf].
  assert (Hin : is_Some (types db !! ty)) by (rewrite Ht; eauto).
  repeat match goal with
    | |- (if ?b then _ else _) ?s = _ ∧ _ => destruct b eqn:?
    end;
    try agree_leaf;
    try (destruct (is_struct t));
    (apply (agree_cached n); [intros r0; agree_tac Hc | done | done | done]).
Qed.

(** With [n] units of fuel the conversion finishes from every state that has
    fewer than [n] types left to do, and one more unit changes nothing. *)
Lemma convert_fuel_agree n ty :
  agree db n (convert_fuel db n ty) (convert_fuel db (S n) ty).
Proof.
  revert ty. induction n as [|n IH]; intros ty.
  - intros st Hst. lia.
  - change (agree db (S n) (convert_body db (convert_fuel db n) ty)
                        (convert_body db (convert_fuel db (S n)) ty)).
    apply convert_body_agree, IH.
Qed.



(** The equation of the source: [_convert_ida_type] is its body, with the
    recursive calls made to [_convert_ida_type] itself. *)
Lemma convert_unfold ty st :
  _convert_ida_type db ty st = convert_body db (_convert_ida_type db) ty st.
Proof.
  unfold _convert_ida_type.
  apply (convert_body_agree _ _ _ (convert_fuel_agree (size (types db)))).
  pose proof (todo_bound st). lia.
Qed.

End Termination.

(** ** What a conversion leaves untouched *)

Section Frame.
Context (db : ida).
Local Open Scope nat_scope.

Lemma keeps_bind L {A B} (m : M cstate A) (k : A → M cstate B) :
  keeps L m → (∀ a, keeps L (k a)) → keeps L (bind m k).
Proof.
  intros Hm Hk st HL. destruct (Hm st HL) as (H1 & H2 & H3).
  unfold bind. destruct (m st) as [[a | e |] st1]; simpl in *; [|done..].
  destruct (Hk a st1 H1) as (K1 & K2 & K3).
  split; [done|]. split.
  - intros i Hi. rewrite K2 by done. by apply H2.
  - by etrans.
Qed.

Lemma keeps_ret L {A} (a : A) : keeps L (ret a).
Proof. intros st HL. simpl. done. Qed.

Lemma keeps_raise L {A} e : keeps L (@raise cstate A e).
Proof. intros st HL. simpl. done. Qed.

Lemma keeps_diverge L {A} : keeps L (@diverge cstate A).
Proof. intros st HL. simpl. done. Qed.

Lemma keeps_alloc L nd : keeps L (alloc nd).
Proof.
  intros st HL. simpl. rewrite length_app. split; [lia|]. split; [|done].
  intros i Hi. apply lookup_app_l. lia.
Qed.

Lemma keeps_update L r f : L ≤ r → keeps L (update r f).
Proof.
  intros Hr st HL. simpl. rewrite length_alter. split; [done|].
  split; [|done]. intros i Hi. apply list_lookup_alter_ne. lia.
Qed.

Lemma keeps_if L {A} (b : bool) (m1 m2 : M cstate A) :
  keeps L m1 → keeps L m2 → keeps L (if b then m1 else m2).
Proof. by destruct b. Qed.

Lemma keeps_add_parameters L conv r l :
  (∀ ty, keeps L (conv ty)) → L ≤ r → keeps L (add_parameters conv r l).
Proof.
  intros Hc Hr. induction l as [|a l IH]; simpl.
  - apply keeps_ret.
  - apply keeps_bind; [apply Hc|]. intros p.
    apply keeps_bind; [by apply keeps_update|]. intros _. apply IH.
Qed.

Lemma keeps_add_members L conv ms r k i :
  (∀ ty, keeps L (conv ty)) → L ≤ r → keeps L (add_members conv ms r k i).
Proof.
  intros Hc Hr. revert i. induction k as [|k IH]; intros i; simpl.
  - apply keeps_ret.
  - destruct (ms !! i); [|apply keeps_ret].
    apply keeps_bind; [apply Hc|]. intros e.
    apply keeps_bind; [by apply keeps_update|]. intros _. apply IH.
Qed.

(** The node of [ty] is allocated past the first [L] objects, and [ty] was not
    in the cache. *)
Lemma keeps_cached L {A} nd ty (k : ref → M cstate A) st :
  (∀ r, L ≤ r → keeps L (k r)) →
  L ≤ length (heap st) → cache st !! ty = None →
  let m := (r <- alloc nd ;; cache_set ty r ;;; k r)%py in
  L ≤ length (heap (m st).2) ∧
  (∀ i, i < L → heap (m st).2 !! i = heap st !! i) ∧
  cache st ⊆ cache (m st).2.
Proof.
  intros Hk HL Hc. cbv zeta. unfold bind, alloc, cache_set. simpl.
  set (st1 := CState (heap st ++ [nd]) (<[ty:=length (heap st)]> (cache st))).
  assert (HL1 : L ≤ length (heap st1)).
  { subst st1. simpl. rewrite length_app. lia. }
  destruct (Hk (length (heap st)) HL st1 HL1) as (K1 & K2 & K3).
  split; [done|]. split.
  - intros i Hi. rewrite K2 by done. subst st1. simpl.
    apply lookup_app_l. lia.
  - etrans; [|exact K3]. subst st1. simpl. by apply insert_subseteq.
Qed.

Ltac keeps_tac Hc :=
  repeat first
    [ apply keeps_ret | apply keeps_raise | apply keeps_alloc
    | (apply keeps_update; done) | apply Hc
    | (apply keeps_add_parameters; [|done]) 
    | (apply keeps_add_members; [|done])
    | apply keeps_if
    | (apply keeps_bind; [|intros ?]) ].

Lemma convert_body_keeps conv :
  (∀ L ty, keeps L (conv ty)) → ∀ L ty, keeps L (convert_body db conv ty).
Proof.
  intros Hc L ty st HL.
  destruct (cache st !! ty) as [r|] eqn:Hhit.
  { rewrite (convert_body_hit _ _ _ _ _ Hhit). simpl. done. }
  rewrite (convert_body_miss _ _ _ _ Hhit).
  unfold convert_miss. cbv zeta. generalize (tinfo_of db ty). intros t.
  repeat match goal with
    | |- _ ≤ length (heap ((if ?b then _ else _) ?s).2) ∧ _ =>
        destruct b eqn:?
    end;
    try (by apply keeps_alloc);
    try (by apply keeps_raise);
    try (destruct (is_struct t));
    (apply keeps_cached; [intros r0 Hr0; keeps_tac Hc | done | done]).
Qed.

Lemma convert_fuel_keeps n L ty : keeps L (convert_fuel db n ty).
Proof.
  revert L ty. induction n as [|n IH]; intros L ty.
  - apply keeps_diverge.
  - simpl. by apply convert_body_keeps.
Qed.

(** A conversion changes no object that existed before the call, and no
    entry that the cache had. *)
Lemma convert_keeps L ty : keeps L (_convert_ida_type db ty).
Proof. apply convert_fuel_keeps. Qed.

End Frame.

(** ** The outcome of a conversion does not depend on the store *)

Section Status.
Context (db : ida).

Lemma sim_bind {A A' B B'} (m1 : M cstate A) (m2 : M cstate A')
    (k1 : A → M cstate B) (k2 : A' → M cstate B') :
  sim m1 m2 → (∀ a1 a2, sim (k1 a1) (k2 a2)) → sim (bind m1 k1) (bind m2 k2).
Proof.
  intros Hm Hk st1 st2 Hd. destruct (Hm st1 st2 Hd) as [Hs Hd'].
  unfold bind.
  destruct (m1 st1) as [[a1 | e1 |] s1], (m2 st2) as [[a2 | e2 |] s2];
    simpl in *; try done.
  by apply Hk.
Qed.

Lemma sim_ret {A B} (a : A) (b : B) : sim (ret a) (ret b).
Proof. intros st1 st2 Hd. simpl. done. Qed.

Lemma sim_raise {A B} e : sim (@raise cstate A e) (@raise cstate B e).
Proof. intros st1 st2 Hd. simpl. done. Qed.

Lemma sim_diverge {A B} : sim (@diverge cstate A) (@diverge cstate B).
Proof. intros st1 st2 Hd. simpl. done. Qed.

Lemma sim_alloc nd1 nd2 : sim (alloc nd1) (alloc nd2).
Proof. intros st1 st2 Hd. simpl. done. Qed.

Lemma sim_update r1 r2 f1 f2 : sim (update r1 f1) (update r2 f2).
Proof. intros st1 st2 Hd. simpl. done. Qed.

Lemma sim_cache_set ty r1 r2 : sim (cache_set ty r1) (cache_set ty r2).
Proof. intros st1 st2 Hd. simpl. rewrite !dom_insert_L, Hd. done. Qed.

Lemma sim_if {A B} (b : bool) (m1 m2 : M cstate A) (m1' m2' : M cstate B) :
  sim m1 m1' → sim m2 m2' →
  sim (if b then m1 else m2) (if b then m1' else m2').
Proof. by destruct b. Qed.

Lemma sim_add_parameters conv1 conv2 r1 r2 l :
  (∀ ty, sim (conv1 ty) (conv2 ty)) →
  sim (add_parameters conv1 r1 l) (add_parameters conv2 r2 l).
Proof.
  intros Hc. induction l as [|a l IH]; simpl.
  - apply sim_ret.
  - apply sim_bind; [apply Hc|]. intros p1 p2.
    apply sim_bind; [apply sim_update|]. intros _ _. apply IH.
Qed.

Lemma sim_add_members conv1 conv2 ms r1 r2 k i :
  (∀ ty, sim (conv1 ty) (conv2 ty)) →
  sim (add_members conv1 ms r1 k i) (add_members conv2 ms r2 k i).
Proof.
  intros Hc. revert i. induction k as [|k IH]; intros i; simpl.
  - apply sim_ret.
  - destruct (ms !! i); [|apply sim_ret].
    apply sim_bind; [apply Hc|]. intros e1 e2.
    apply sim_bind; [apply sim_update|]. intros _ _. apply IH.
Qed.

Ltac sim_tac Hc :=
  repeat first
    [ apply sim_ret | apply sim_raise | apply sim_alloc | apply sim_update
    | apply sim_cache_set | apply Hc
    | apply sim_add_parameters | apply sim_add_members
    | apply sim_if
    | (apply sim_bind; [|intros ? ?]) ].

Lemma convert_miss_sim conv1 conv2 ty :
  (∀ ty, sim (conv1 ty) (conv2 ty)) →
  sim (convert_miss db conv1 ty) (convert_miss db conv2 ty).
Proof.
  intros Hc. unfold convert_miss. cbv zeta.
  generalize (tinfo_of db ty). intros t.
  repeat match goal with
    | |- sim (if ?b then _ else _) _ => destruct b eqn:?
    end;
    sim_tac Hc.
Qed.

Lemma convert_body_sim conv1 conv2 ty :
  (∀ ty, sim (conv1 ty) (conv2 ty)) →
  sim (convert_body db conv1 ty) (convert_body db conv2 ty).
Proof.
  intros Hc st1 st2 Hd. unfold convert_body, bind, cache_get.
  assert (Hk : is_Some (cache st1 !! ty) ↔ is_Some (cache st2 !! ty)).
  { by rewrite <- !elem_of_dom, Hd. }
  destruct (cache st1 !! ty) as [r1|] eqn:H1,
           (cache st2 !! ty) as [r2|] eqn:H2.
  - simpl. done.
  - destruct Hk as [Hk _]. destruct Hk as [? ?]; [eauto|done].
  - destruct Hk as [_ Hk]. destruct Hk as [? ?]; [eauto|done].
  - by apply convert_miss_sim.
Qed.

Lemma convert_fuel_sim n ty : sim (convert_fuel db n ty) (convert_fuel db n ty).
Proof.
  revert ty. induction n as [|n IH]; intros ty.
  - apply sim_diverge.
  - simpl. by apply convert_body_sim.
Qed.

(** Whether a conversion returns or raises, and what it raises, is decided
    by the type and by the keys of the cache alone. *)
Lemma convert_status ty st1 st2 :
  dom (cache st1) = dom (cache st2) →
  same_status (_convert_ida_type db ty st1).1 (_convert_ida_type db ty st2).1.
Proof. intros Hd. by apply convert_fuel_sim. Qed.

End Status.

(** ** The only exception of a conversion *)

Section Raises.
Context (db : ida).












End Raises.

(** * The claims *)

(** Splits a hypothesis [..._case t = true] into the answers of [t]. *)
Ltac split_case H :=
  unfold pointer_case, function_case, array_case, struct_case, bool_case,
    integral_case, floating_case, complex_case, scalar_case, not_void in H;
  repeat match type of H with
    | _ && _ = true => let H' := fresh "Hq" in
                       apply andb_prop in H; destruct H as [H H']
    end;
  repeat match goal with
    | H0 : negb _ = true |- _ => apply negb_true_iff in H0
    end.

(** Decides the tests of the chain in the goal by a hypothesis
    [..._case t = true]. *)
Ltac use_case H :=
  split_case H;
  repeat match goal with
    | Hb : ?x = true |- context [?x] => rewrite Hb
    | Hb : ?x = false |- context [?x] => rewrite Hb
    end.

(** ** The equations of the caching cases *)

Section Equations.
Context (db : ida).
Local Open Scope nat_scope.

Lemma convert_hit ty st r :
  cache st !! ty = Some r → _convert_ida_type db ty st = (Ok r, st).
Proof. intros H. rewrite convert_unfold. by apply convert_body_hit. Qed.

Lemma convert_miss_eq ty st :
  cache st !! ty = None →
  _convert_ida_type db ty st = convert_miss db (_convert_ida_type db) ty st.
Proof. intros H. rewrite convert_unfold. by apply convert_body_miss. Qed.

Lemma convert_pointer ty st :
  let t := tinfo_of db ty in
  let r := length (heap st) in
  cache st !! ty = None → pointer_case t = true →
  _convert_ida_type db ty st =
    (e <- _convert_ida_type db (get_pointed_object t) ;;
     update r (set_element_type e) ;;;
     ret r)%py (entered st ty (PointerType None)).
Proof.
  intros t r Hc Hk. rewrite (convert_miss_eq _ _ Hc). unfold convert_miss.
  fold t. cbv zeta. use_case Hk. reflexivity.
Qed.

Lemma convert_function ty st :
  let t := tinfo_of db ty in
  let r := length (heap st) in
  cache st !! ty = None → function_case t = true →
  _convert_ida_type db ty st =
    (rt <- _convert_ida_type db (get_rettype t) ;;
     update r (set_return_type rt) ;;;
     add_parameters (_convert_ida_type db) r (args t) ;;;
     (if is_vararg_cc t then update r set_is_vararg else ret tt) ;;;
     (if is_purging_cc t
      then update r (set_num_bytes_popped_off_stack (calc_purged_bytes t))
      else ret tt) ;;;
     ret r)%py (entered st ty (FunctionType None [] false None)).
Proof.
  intros t r Hc Hk. rewrite (convert_miss_eq _ _ Hc). unfold convert_miss.
  fold t. cbv zeta. use_case Hk. reflexivity.
Qed.

Lemma convert_array ty st :
  let t := tinfo_of db ty in
  let r := length (heap st) in
  cache st !! ty = None → array_case t = true →
  _convert_ida_type db ty st =
    (e <- _convert_ida_type db (get_array_element t) ;;
     update r (set_element_type e) ;;;
     update r (set_num_elements (get_array_nelems t)) ;;;
     ret r)%py (entered st ty (ArrayType None None)).
Proof.
  intros t r Hc Hk. rewrite (convert_miss_eq _ _ Hc). unfold convert_miss.
  fold t. cbv zeta. use_case Hk. reflexivity.
Qed.



Lemma alter_tail {A} (f : A → A) (l1 l2 : list A) i k :
  i = length l1 + k → alter f i (l1 ++ l2) = l1 ++ alter f k l2.
Proof. intros ->. apply alter_app_r. Qed.

Lemma lookup_tail {A} (l1 l2 : list A) i k :
  i = length l1 + k → (l1 ++ l2) !! i = l2 !! k.
Proof. intros ->. rewrite lookup_app_r by lia. f_equal. lia. Qed.

End Equations.

(** ** C1: the node is cached before its children are converted *)



(** The same conversion, evaluated: three nodes, the cycle closed. *)
Example convert_struct_node_pointer :
  let '(r, st) := _convert_ida_type ex_db 1 (CState [] ∅) in
  r = Ok 0%nat ∧
  heap st = [PointerType (Some 1%nat); StructureType [2%nat];
             PointerType (Some 1%nat)].
Proof. vm_compute. done. Qed.

(** ** C2: the primitive types *)

Lemma convert_primitive (db : ida) p ty st :
  let t := tinfo_of db ty in
  cache st !! ty = None → is_primitive p t = true →
  _convert_ida_type db ty st =
    (Ok (length (heap st)), CState (heap st ++ [leaf p t]) (cache st)).
Proof.
  intros t Hc Hp. rewrite (convert_miss_eq _ _ _ Hc). unfold convert_miss.
  fold t. cbv zeta. destruct p as [| |w sg| | |]; simpl in Hp.
  - rewrite Hp. reflexivity.
  - use_case Hp. reflexivity.
  - apply andb_prop in Hp. destruct Hp as [Hp Ho].
    apply bool_decide_eq_true in Ho. unfold int_answers in Ho.
    destruct w, sg; simpl in Ho; injection Ho as ? ? ? ? ? ? ? ? ? ?;
      use_case Hp; reflexivity.
  - apply andb_prop in Hp. destruct Hp as [Hp Ho].
    apply bool_decide_eq_true in Ho. injection Ho as ? ? ?.
    use_case Hp. reflexivity.
  - apply andb_prop in Hp. destruct Hp as [Hp Ho].
    apply bool_decide_eq_true in Ho. injection Ho as ? ? ?.
    use_case Hp. reflexivity.
  - apply andb_prop in Hp. destruct Hp as [Hp Ho].
    apply bool_decide_eq_true in Ho. injection Ho as ? ? ?.
    use_case Hp. reflexivity.
Qed.

(** C2, as amended.  For every primitive foreign type that is not in the
    cache, the conversion returns a new leaf of exactly the matching width and
    signedness and leaves the cache as it was; a second conversion of the same
    type in the same cache therefore builds another leaf, equal in value, at
    the next reference, not the node of the first call. *)
Theorem C2_primitive_leaf_is_fresh (db : ida) p ty st :
  let t := tinfo_of db ty in
  let r := length (heap st) in
  cache st !! ty = None → is_primitive p t = true →
  ∃ st1 st2,
    _convert_ida_type db ty st = (Ok r, st1) ∧
    _convert_ida_type db ty st1 = (Ok (S r), st2) ∧
    heap st2 !! r = Some (leaf p t) ∧
    heap st2 !! S r = Some (leaf p t) ∧
    cache st1 = cache st ∧ cache st2 = cache st.
Proof.
  intros t r Hc Hp.
  exists (CState (heap st ++ [leaf p t]) (cache st)).
  exists (CState ((heap st ++ [leaf p t]) ++ [leaf p t]) (cache st)).
  split; [by apply convert_primitive|]. split.
  - rewrite (convert_primitive db p) by done. simpl.
    rewrite length_app. simpl. do 2 f_equal. unfold r. lia.
  - simpl. rewrite <- app_assoc. simpl.
    rewrite (lookup_tail (heap st) _ r 0%nat) by (unfold r; lia).
    rewrite (lookup_tail (heap st) _ (S r) 1%nat) by (unfold r; lia).
    done.
Qed.

Lemma C2_witness :
  ∃ st1 st2,
    _convert_ida_type ex_db 6 (CState [] ∅) = (Ok 0%nat, st1) ∧
    _convert_ida_type ex_db 6 st1 = (Ok 1%nat, st2) ∧
    heap st2 !! 0%nat = Some (IntegerType 4 false) ∧
    heap st2 !! 1%nat = Some (IntegerType 4 false) ∧
    cache st1 = ∅ ∧ cache st2 = ∅.
Proof.
  apply (C2_primitive_leaf_is_fresh ex_db (PInteger W4 false) 6%nat
           (CState [] ∅)); reflexivity.
Defined.

(** C2 as stated fails: the [unsigned int] of the example host (type 6) is
    converted twice with the same cache; the first call returns the right
    leaf, and the second call returns a reference other than the first. *)
Lemma C2_counterexample :
  ∃ r1 st1 r2 st2,
    _convert_ida_type ex_db 6 (CState [] ∅) = (Ok r1, st1) ∧
    _convert_ida_type ex_db 6 st1 = (Ok r2, st2) ∧
    heap st1 !! r1 = Some (IntegerType 4 false) ∧
    r2 ≠ r1.
Proof.
  exists 0%nat, (CState [IntegerType 4 false] ∅), 1%nat,
    (CState [IntegerType 4 false; IntegerType 4 false] ∅).
  split; [by vm_compute|]. split; [by vm_compute|]. split; [done|lia].
Qed.

(** ** C4: function types *)

Lemma add_parameters_spec (db : ida) r l : ∀ st st' rt ps0 va po,
  heap st !! r = Some (FunctionType rt ps0 va po) →
  add_parameters (_convert_ida_type db) r l st = (Ok tt, st') →
  ∃ ps, params_converted db r l st ps st' ∧ length ps = length l ∧
        heap st' !! r = Some (FunctionType rt (ps0 ++ ps) va po).
Proof.
  induction l as [|a l IH]; intros st st' rt ps0 va po Hr Hrun; simpl in Hrun.
  - injection Hrun as <-. exists []. rewrite app_nil_r.
    split; [constructor|done].
  - unfold bind at 1 in Hrun.
    destruct (_convert_ida_type db a st) as [[p | e |] st1] eqn:Hconv;
      [|done..].
    assert (Hlen : (S r ≤ length (heap st))%nat).
    { apply lookup_lt_Some in Hr. lia. }
    destruct (convert_keeps db (S r) a st Hlen) as (_ & Hkeep & _).
    rewrite Hconv in Hkeep. cbn [snd] in Hkeep.
    unfold bind at 1 in Hrun. simpl in Hrun.
    assert (Hr1 : heap (CState (alter (add_parameter_type p) r (heap st1))
                          (cache st1)) !! r
                  = Some (FunctionType rt (ps0 ++ [p]) va po)).
    { simpl. rewrite list_lookup_alter_eq, Hkeep, Hr by lia. done. }
    destruct (IH _ _ _ _ _ _ Hr1 Hrun) as (ps & Hps & Hl & Hfin).
    exists (p :: ps). split; [by econstructor|]. split; [simpl; by rewrite Hl|].
    by rewrite <- app_assoc in Hfin.
Qed.

(** C4.  When the conversion of a function type that was not in the cache
    returns, the node it returns is the new node [r]; the return type was
    converted first, in the state where [r] is already cached, and then the
    parameters, in declaration order; [r] holds the converted return type,
    exactly the converted parameters in that order (as many as the type has
    parameters), the variadic flag exactly when the calling convention is
    variadic, and the purged byte count exactly when the convention purges. *)
Theorem C4_function_node (db : ida) ty st r st' :
  let t := tinfo_of db ty in
  cache st !! ty = None → function_case t = true →
  _convert_ida_type db ty st = (Ok r, st') →
  r = length (heap st) ∧
  ∃ rt ps st1 st2,
    _convert_ida_type db (get_rettype t)
      (entered st ty (FunctionType None [] false None)) = (Ok rt, st1) ∧
    params_converted db r (args t)
      (CState (alter (set_return_type rt) r (heap st1)) (cache st1)) ps st2 ∧
    length ps = length (args t) ∧
    heap st' !! r =
      Some (FunctionType (Some rt) ps (is_vararg_cc t)
              (if is_purging_cc t then Some (calc_purged_bytes t)
               else None)) ∧
    cache st' = cache st2.
Proof.
  intros t Hc Hk Hrun. rewrite convert_function in Hrun by done. fold t in Hrun.
  set (r0 := length (heap st)) in *.
  set (st0 := entered st ty (FunctionType None [] false None)) in *.
  assert (H0 : heap st0 !! r0 = Some (FunctionType None [] false None)).
  { unfold st0, entered. simpl.
    by rewrite (lookup_tail _ _ r0 0%nat) by (unfold r0; lia). }
  unfold bind at 1 in Hrun.
  destruct (_convert_ida_type db (get_rettype t) st0) as [[rt | e |] st1]
    eqn:Hret; [|done..].
  assert (Hlen : (S r0 ≤ length (heap st0))%nat).
  { apply lookup_lt_Some in H0. lia. }
  destruct (convert_keeps db (S r0) (get_rettype t) st0 Hlen) as (_ & Hkeep & _).
  rewrite Hret in Hkeep. cbn [snd] in Hkeep.
  unfold bind at 1 in Hrun. simpl in Hrun.
  set (st1' := CState (alter (set_return_type rt) r0 (heap st1)) (cache st1)) in *.
  assert (H1 : heap st1' !! r0 = Some (FunctionType (Some rt) [] false None)).
  { unfold st1'. simpl. rewrite list_lookup_alter_eq, Hkeep, H0 by lia. done. }
  unfold bind at 1 in Hrun.
  destruct (add_parameters (_convert_ida_type db) r0 (args t) st1')
    as [[[] | e |] st2] eqn:Hargs; [|done..].
  destruct (add_parameters_spec db r0 (args t) _ _ _ _ _ _ H1 Hargs)
    as (ps & Hps & Hl & H2).
  simpl in H2.
  assert (Hfin : r = r0 ∧ cache st' = cache st2 ∧ heap st' !! r0 =
            Some (FunctionType (Some rt) ps (is_vararg_cc t)
              (if is_purging_cc t then Some (calc_purged_bytes t)
               else None))).
  { destruct (is_vararg_cc t), (is_purging_cc t); unfold bind, update, ret in Hrun;
      simpl in Hrun; injection Hrun as <- <-; simpl;
      rewrite ?list_lookup_alter_eq, H2; done. }
  destruct Hfin as (-> & Hcache & Hnode).
  split; [done|]. exists rt, ps, st1, st2. done.
Qed.

Lemma C4_witness :
  let st' := (_convert_ida_type ex_db 8 (CState [] ∅)).2 in
  0%nat = length (heap (CState [] ∅)) ∧
  ∃ rt ps st1 st2,
    _convert_ida_type ex_db 9
      (entered (CState [] ∅) 8%nat (FunctionType None [] false None))
      = (Ok rt, st1) ∧
    params_converted ex_db 0%nat [1%nat; 6%nat; 5%nat]
      (CState (alter (set_return_type rt) 0%nat (heap st1)) (cache st1))
      ps st2 ∧
    length ps = 3%nat ∧
    heap st' !! 0%nat = Some (FunctionType (Some rt) ps true (Some 12)) ∧
    cache st' = cache st2.
Proof.
  apply (C4_function_node ex_db 8%nat (CState [] ∅) 0%nat); reflexivity.
Defined.

(** The same conversion, evaluated. *)
Example convert_stdcall_function :
  let '(r, st) := _convert_ida_type ex_db 8 (CState [] ∅) in
  r = Ok 0%nat ∧
  heap st !! 0%nat =
    Some (FunctionType (Some 1%nat) [2%nat; 5%nat; 6%nat] true (Some 12)) ∧
  heap st !! 1%nat = Some (IntegerType 4 true) ∧
  heap st !! 5%nat = Some (IntegerType 4 false) ∧
  heap st !! 6%nat = Some BoolType.
Proof. vm_compute. done. Qed.

(** ** C5: the precedence of the integer predicates *)

(** C5.  For a type that is not in the cache and reaches the integral case,
    the conversion returns a new leaf, the one of the first predicate of the
    precedence list that holds, whatever the later predicates answer; when no
    predicate holds it raises [UnhandledTypeException], and the state is as
    before. *)
Theorem C5_integral_precedence (db : ida) ty st :
  let t := tinfo_of db ty in
  cache st !! ty = None → integral_case t = true →
  _convert_ida_type db ty st =
    match classify_integral t with
    | Some nd => (Ok (length (heap st)), CState (heap st ++ [nd]) (cache st))
    | None =>
        (Raise (UnhandledTypeException
                  ("Unhandled integral type: " +:+ dstr t) (VTinfo ty)), st)
    end.
Proof.
  intros t Hc Hk. rewrite (convert_miss_eq _ _ _ Hc). unfold convert_miss.
  fold t. cbv zeta. use_case Hk.
  unfold classify_integral, integral_precedence. simpl.
  repeat match goal with
    | |- context [if ?b then _ else _] => destruct b
    end; reflexivity.
Qed.

Lemma C5_witness :
  _convert_ida_type ex_overlap 1 (CState [] ∅) =
    (Ok 0%nat, CState [IntegerType 8 false] ∅).
Proof.
  apply (C5_integral_precedence ex_overlap 1%nat (CState [] ∅)); reflexivity.
Defined.

(** ** C7: complex numbers *)

Section Complex.
Context (db : ida) (ty : handle).
Hypothesis complex_ty : complex_case (tinfo_of db ty) = true.

Lemma skips_bind {A B} (m : M cstate A) (k : A → M cstate B) :
  skips ty m → (∀ a, skips ty (k a)) → skips ty (bind m k).
Proof.
  intros Hm Hk st Hst. specialize (Hm st Hst). unfold bind.
  destruct (m st) as [[a | e |] st1]; simpl in *; [|done..].
  by apply Hk.
Qed.

Lemma skips_ret {A} (a : A) : skips ty (ret a).
Proof. by intros st Hst. Qed.

Lemma skips_raise {A} e : skips ty (@raise cstate A e).
Proof. by intros st Hst. Qed.

Lemma skips_diverge {A} : skips ty (@diverge cstate A).
Proof. by intros st Hst. Qed.

Lemma skips_alloc nd : skips ty (alloc nd).
Proof. by intros st Hst. Qed.

Lemma skips_update r f : skips ty (update r f).
Proof. by intros st Hst. Qed.

Lemma skips_cache_set ty' r : ty' ≠ ty → skips ty (cache_set ty' r).
Proof. intros Hne st Hst. simpl. by rewrite lookup_insert_ne. Qed.

Lemma skips_if {A} (b : bool) (m1 m2 : M cstate A) :
  skips ty m1 → skips ty m2 → skips ty (if b then m1 else m2).
Proof. by destruct b. Qed.

Lemma skips_add_parameters conv r l :
  (∀ ty', skips ty (conv ty')) → skips ty (add_parameters conv r l).
Proof.
  intros Hc. induction l as [|a l IH]; simpl.
  - apply skips_ret.
  - apply skips_bind; [apply Hc|]. intros p.
    apply skips_bind; [apply skips_update|]. intros _. apply IH.
Qed.

Lemma skips_add_members conv ms r k i :
  (∀ ty', skips ty (conv ty')) → skips ty (add_members conv ms r k i).
Proof.
  intros Hc. revert i. induction k as [|k IH]; intros i; simpl.
  - apply skips_ret.
  - destruct (ms !! i); [|apply skips_ret].
    apply skips_bind; [apply Hc|]. intros e.
    apply skips_bind; [apply skips_update|]. intros _. apply IH.
Qed.

(** The chain, at a complex type: no test before [is_complex] holds, and the
    [raise] is reached with the state as it was. *)
Lemma convert_miss_complex conv st :
  convert_miss db conv ty st =
    (Raise (UnhandledTypeException
              ("Complex numbers are not yet handled: "
               +:+ dstr (tinfo_of db ty)) (VTinfo ty)), st).
Proof.
  pose proof complex_ty as Hk. unfold convert_miss. cbv zeta.
  use_case Hk. reflexivity.
Qed.

Ltac skips_tac Hc Hne :=
  repeat first
    [ apply skips_ret | apply skips_raise | apply skips_alloc
    | apply skips_update | (apply skips_cache_set; exact Hne) | apply Hc
    | apply skips_add_parameters | apply skips_add_members
    | apply skips_if
    | (apply skips_bind; [|intros ?]) ].

Lemma convert_body_skips conv :
  (∀ ty', skips ty (conv ty')) → ∀ ty', skips ty (convert_body db conv ty').
Proof.
  intros Hc ty' st Hst.
  destruct (cache st !! ty') as [r|] eqn:Hhit.
  { by rewrite (convert_body_hit _ _ _ _ _ Hhit). }
  rewrite (convert_body_miss _ _ _ _ Hhit).
  destruct (decide (ty' = ty)) as [->|Hne].
  { by rewrite convert_miss_complex. }
  clear Hhit. revert st Hst. change (skips ty (convert_miss db conv ty')).
  unfold convert_miss. cbv zeta. generalize (tinfo_of db ty'). intros t.
  skips_tac Hc Hne.
Qed.

Lemma convert_fuel_skips n ty' : skips ty (convert_fuel db n ty').
Proof.
  revert ty'. induction n as [|n IH]; intros ty'.
  - apply skips_diverge.
  - simpl. by apply convert_body_skips.
Qed.

End Complex.

(** C7.  The conversion of a complex-number type that is not in the cache
    raises [UnhandledTypeException] with the type's [dstr()] in the message
    and the type itself as the offending value, and the state (store and
    cache) is exactly as before the call.  Moreover no conversion at all, of
    whatever type, puts an entry for a complex-number type into the cache. *)
Theorem C7_complex_unhandled (db : ida) ty st :
  let t := tinfo_of db ty in
  complex_case t = true → cache st !! ty = None →
  _convert_ida_type db ty st =
    (Raise (UnhandledTypeException
              ("Complex numbers are not yet handled: " +:+ dstr t)
              (VTinfo ty)), st) ∧
  ∀ root, cache (_convert_ida_type db root st).2 !! ty = None.
Proof.
  intros t Hk Hc. split.
  - rewrite (convert_miss_eq _ _ _ Hc). by apply convert_miss_complex.
  - intros root. by apply convert_fuel_skips.
Qed.

Lemma C7_witness :
  _convert_ida_type ex_db 7 (CState [] ∅) =
    (Raise (UnhandledTypeException
              "Complex numbers are not yet handled: complex double"
              (VTinfo 7)), CState [] ∅) ∧
  ∀ root, cache (_convert_ida_type ex_db root (CState [] ∅)).2 !! 7%nat = None.
Proof.
  apply (C7_complex_unhandled ex_db 7%nat (CState [] ∅)); reflexivity.
Defined.

(** ** C9: [get_type] on a [Type] and on a [Function] *)

(** C9.  [get_type] returns a value that is already a [Type] as it is, the
    same object, and changes nothing; so applying [get_type] to what
    [get_type] returned gives that result again.  For a [Function] entity it
    returns the function type the entity holds; no conversion runs (the store
    is as before). *)
Theorem C9_get_type_identity (db : ida) :
  (∀ r w, get_type db (VType r) w = (Ok r, w)) ∧
  (∀ f w, get_type db (VFunction f) w = (Ok (type f), w)) ∧
  (∀ x w r w',
     get_type db x w = (Ok r, w') → get_type db (VType r) w' = (Ok r, w')).
Proof. split; [done|]. split; done. Qed.

Lemma C9_witness :
  let w' := (get_type ex_db (VInt 4096) ex_world).2 in
  get_type ex_db (VType 0) w' = (Ok 0%nat, w').
Proof.
  apply (proj2 (proj2 (C9_get_type_identity ex_db)) (VInt 4096) ex_world).
  reflexivity.
Defined.

(** ** C10: [get_type] on an address without type information *)

(** C10.  When the two queries leave an empty [tinfo_t] (each of them raised,
    filled nothing, or filled an empty type), [get_type] returns a new
    [VoidType] node if the value is false ([0], [None]) and raises
    [UnhandledTypeException], carrying the value, for every other one. *)
Theorem C10_unrecovered_type (db : ida) ty w :
  address_like ty = true → tif_empty db (recover_tinfo db ty) = true →
  get_type db ty w =
    if truthy ty
    then (Raise (UnhandledTypeException
                   "Unrecognized type passed to `Type`." ty), w)
    else (Ok (length (w_heap w)),
          World (w_heap w ++ [VoidType]) (_FUNCTIONS w) (w_next w)
                (w_stdout w)).
Proof.
  intros Ha He.
  assert (Hgo : get_type db ty w =
            match recover_tinfo db ty with
            | Some h =>
                if negb (tif_empty db (recover_tinfo db ty))
                then convert_with_new_cache db h w
                else if negb (truthy ty) then new_void w
                else (Raise (UnhandledTypeException
                               "Unrecognized type passed to `Type`." ty), w)
            | None =>
                if negb (truthy ty) then new_void w
                else (Raise (UnhandledTypeException
                               "Unrecognized type passed to `Type`." ty), w)
            end).
  { destruct ty; try discriminate Ha; unfold get_type;
      destruct (recover_tinfo db _); repeat destruct (negb _); done. }
  rewrite Hgo, He. simpl.
  destruct (recover_tinfo db ty), (truthy ty); done.
Qed.

Lemma C10_witness :
  get_type ex_db (VInt 0) ex_world = (Ok 0%nat, World [VoidType] ∅ 0 []) ∧
  get_type ex_db (VInt 12288) ex_world =
    (Raise (UnhandledTypeException
              "Unrecognized type passed to `Type`." (VInt 12288)), ex_world).
Proof.
  split.
  - apply (C10_unrecovered_type ex_db (VInt 0) ex_world); reflexivity.
  - apply (C10_unrecovered_type ex_db (VInt 12288) ex_world); reflexivity.
Defined.

(** ** C3 and C8: [get_function] *)



(** [get_function], case by case. *)
Lemma get_function_eq db arch a w :
  get_function db arch a w =
    match checked_region db a with
    | None => (Raise (InvalidFunction (no_function_msg a)), w)
    | Some f =>
        match get_type db (VInt (start_ea f)) w with
        | (Ok ft, w1) => register db arch f ft w1
        | (Raise (UnhandledTypeException msg v), w1) =>
            (Raise (InvalidFunction
                      ("Could not assign type to function at address "
                       +:+ format_x (start_ea f) +:+ ": "
                       +:+ exc_str db msg v)), w1)
        | (Raise e, w1) => (Raise e, w1)
        | (OutOfFuel, w1) => (OutOfFuel, w1)
        end
    end.
Proof.
  unfold get_function, checked_region.
  destruct (match get_func db a with Some f0 => Some f0
            | None => get_prev_func db a end) as [f|]; [|done].
  destruct (func_contains db f a); [|done]. cbn [negb].
  unfold bind at 1, try_except.
  destruct (get_type db (VInt (start_ea f)) w) as [[ft | e |] w1];
    [|destruct e; reflexivity|reflexivity].
  unfold bind, print_serialized, registry_get, register. simpl.
  by destruct (_FUNCTIONS w1 !! start_ea f).
Qed.

(** [get_type] does not touch the registry, and whether it returns or raises
    does not depend on the session. *)
Lemma get_type_registry db x w :
  _FUNCTIONS (get_type db x w).2 = _FUNCTIONS w.
Proof.
  assert (Hc : ∀ h, _FUNCTIONS (convert_with_new_cache db h w).2
                    = _FUNCTIONS w).
  { intros h. unfold convert_with_new_cache.
    by destruct (_convert_ida_type db h _). }
  destruct x; simpl; try done;
    destruct (recover_tinfo db _); repeat destruct (negb _); simpl; done.
Qed.

Lemma convert_with_new_cache_status db h w1 w2 :
  same_status (convert_with_new_cache db h w1).1
              (convert_with_new_cache db h w2).1.
Proof.
  unfold convert_with_new_cache.
  pose proof (convert_status db h (CState (w_heap w1) ∅)
                (CState (w_heap w2) ∅) eq_refl) as Hs.
  destruct (_convert_ida_type db h (CState (w_heap w1) ∅)),
           (_convert_ida_type db h (CState (w_heap w2) ∅)). done.
Qed.

Lemma get_type_status db x w1 w2 :
  same_status (get_type db x w1).1 (get_type db x w2).1.
Proof.
  destruct x; simpl; try done; try apply convert_with_new_cache_status;
    destruct (recover_tinfo db _); repeat destruct (negb _); simpl;
    try done; apply convert_with_new_cache_status.
Qed.




(** [registry_ok] is an invariant of the session: it holds of the empty
    registry, and [get_function] and the collector keep it. *)
Lemma get_function_registry_ok db arch a w :
  registry_ok w → registry_ok (get_function db arch a w).2.
Proof.
  intros Hok. rewrite get_function_eq.
  destruct (checked_region db a) as [f|]; [|done].
  pose proof (get_type_registry db (VInt (start_ea f)) w) as Hreg.
  assert (Hok1 : registry_ok (get_type db (VInt (start_ea f)) w).2).
  { intros k g. rewrite Hreg. apply Hok. }
  destruct (get_type db (VInt (start_ea f)) w) as [[ft | e |] w1];
    simpl in Hok1; [|by destruct e|done].
  unfold register.
  destruct (_FUNCTIONS w1 !! start_ea f) as [g|] eqn:Hg; simpl; [done|].
  intros k g. simpl. rewrite lookup_insert. case_decide as Hk.
  - intros [= <-]. done.
  - apply Hok1.
Qed.

Lemma collect_registry_ok live w : registry_ok w → registry_ok (collect live w).
Proof.
  intros Hok k g. unfold collect. simpl.
  intros [Hk _]%map_lookup_filter_Some. by apply Hok.
Qed.





(** The three outcomes on the example host: an interior address of the first
    function resolves to its start; the second function has a complex type;
    no function is at or before [0x100]. *)
Example get_function_interior :
  (get_function ex_db AMD64Arch 4100 ex_world).1
    = Ok (IDAFunction 0 AMD64Arch 4096 0 (Func_t 4096 4160)).
Proof. vm_compute. done. Qed.

Example get_function_complex :
  (get_function ex_db AMD64Arch 8192 ex_world).1
    = Raise (InvalidFunction
               ("Could not assign type to function at address 2000: "
                +:+ "Complex numbers are not yet handled: complex double")).
Proof. vm_compute. done. Qed.

Example get_function_outside :
  (get_function ex_db AMD64Arch 256 ex_world).1
    = Raise (InvalidFunction
               "No function defined at or containing address 100").
Proof. vm_compute. done. Qed.

Lemma get_type_next db x w : w_next (get_type db x w).2 = w_next w.
Proof.
  assert (Hc : ∀ h, w_next (convert_with_new_cache db h w).2 = w_next w).
  { intros h. unfold convert_with_new_cache.
    by destruct (_convert_ida_type db h _). }
  destruct x; simpl; try done;
    destruct (recover_tinfo db _); repeat destruct (negb _); simpl; done.
Qed.

Lemma collect_lookup live w k fn :
  _FUNCTIONS w !! k = Some fn → live fn = true →
  _FUNCTIONS (collect live w) !! k = Some fn.
Proof.
  intros Hk Hl. unfold collect. simpl.
  apply map_lookup_filter_Some. done.
Qed.

(** C8.  After [get_function] has returned the entity [fn] for an address,
    [fn] is in the registry under the start address of the region; it stays
    there through every collection for which [fn] is live; and from every
    later session in which that entry is still present, [get_function] for
    the same address (with whatever architecture argument) returns [fn]
    itself, constructs no entity and leaves the registry as it is. *)
Theorem C8_same_instance (db : ida) arch a w fn w1 :
  get_function db arch a w = (Ok fn, w1) →
  ∃ f, checked_region db a = Some f ∧
    _FUNCTIONS w1 !! start_ea f = Some fn ∧
    (∀ live, live fn = true →
       _FUNCTIONS (collect live w1) !! start_ea f = Some fn) ∧
    (∀ arch2 w2, _FUNCTIONS w2 !! start_ea f = Some fn →
       ∃ w3, get_function db arch2 a w2 = (Ok fn, w3) ∧
             w_next w3 = w_next w2 ∧ _FUNCTIONS w3 = _FUNCTIONS w2).
Proof.
  intros Hrun. rewrite get_function_eq in Hrun.
  destruct (checked_region db a) as [f|] eqn:Hf; [|done].
  exists f. split; [done|].
  pose proof (get_type_registry db (VInt (start_ea f)) w) as Hreg.
  destruct (get_type db (VInt (start_ea f)) w) as [[ft | e |] wt] eqn:Hty;
    [|by destruct e|done].
  simpl in Hreg.
  assert (Hin : _FUNCTIONS w1 !! start_ea f = Some fn).
  { unfold register in Hrun.
    destruct (_FUNCTIONS wt !! start_ea f) as [g|] eqn:Hg;
      injection Hrun as <- <-; simpl; [done|apply lookup_insert_eq]. }
  split; [done|]. split.
  - intros live Hl. by apply collect_lookup.
  - intros arch2 w2 Hw2. rewrite get_function_eq, Hf.
    pose proof (get_type_status db (VInt (start_ea f)) w w2) as Hst.
    pose proof (get_type_registry db (VInt (start_ea f)) w2) as Hreg2.
    pose proof (get_type_next db (VInt (start_ea f)) w2) as Hnext2.
    rewrite Hty in Hst.
    destruct (get_type db (VInt (start_ea f)) w2) as [[ft2 | e2 |] wt2];
      simpl in Hst, Hreg2, Hnext2; [|done..].
    unfold register. rewrite Hreg2, Hw2. eexists. split; [reflexivity|].
    simpl. done.
Qed.

Lemma C8_witness :
  let fn := IDAFunction 0 AMD64Arch 4096 0 (Func_t 4096 4160) in
  let w1 := (get_function ex_db AMD64Arch 4100 ex_world).2 in
  ∃ f, checked_region ex_db 4100 = Some f ∧
    _FUNCTIONS w1 !! start_ea f = Some fn ∧
    (∀ live, live fn = true →
       _FUNCTIONS (collect live w1) !! start_ea f = Some fn) ∧
    (∀ arch2 w2, _FUNCTIONS w2 !! start_ea f = Some fn →
       ∃ w3, get_function ex_db arch2 4100 w2 = (Ok fn, w3) ∧
             w_next w3 = w_next w2 ∧ _FUNCTIONS w3 = _FUNCTIONS w2).
Proof.
  apply (C8_same_instance ex_db AMD64Arch 4100 ex_world). reflexivity.
Defined.

(** Two resolutions of two addresses of the same function, evaluated: the
    second returns the entity of the first, and the next identity is still
    1. *)
Example get_function_twice :
  let '(r1, w1) := get_function ex_db AMD64Arch 4100 ex_world in
  let '(r2, w2) := get_function ex_db AMD64Arch 4130 w1 in
  r1 = Ok (IDAFunction 0 AMD64Arch 4096 0 (Func_t 4096 4160)) ∧ r2 = r1 ∧
  w_next w2 = 1%nat.
Proof. vm_compute. done. Qed.

(** Once the entity has been collected, the next resolution constructs a new
    one: equal fields, another identity. *)
Example get_function_after_collection :
  let '(r1, w1) := get_function ex_db AMD64Arch 4100 ex_world in
  let '(r2, w2) := get_function ex_db AMD64Arch 4100
                     (collect (λ _, false) w1) in
  r1 = Ok (IDAFunction 0 AMD64Arch 4096 0 (Func_t 4096 4160)) ∧
  r2 = Ok (IDAFunction 1 AMD64Arch 4096 7 (Func_t 4096 4160)).
Proof. vm_compute. done. Qed.

(** ** C6: architecture detection *)

(** As soon as the register names are not those of an x86 ([ax] and [xmm0]),
    the second test of the chain reads [info], which ida.py never binds: the
    call ends in [NameError], whatever the processor. *)
Lemma guess_architecture_not_x86 h :
  bool_decide ("ax" ∈ ph_get_regnames h)
    && bool_decide ("xmm0" ∈ ph_get_regnames h) = false →
  _guess_architecture ida_py_globals h = Raise (NameError "info").
Proof. intros H. unfold _guess_architecture. by rewrite H. Qed.

(** [_guess_architecture] returns no other name than the three that
    [get_arch] knows, so the last branch of [get_arch] is never taken. *)
Lemma guess_architecture_names globals h name :
  _guess_architecture globals h = Ok name →
  name = "amd64" ∨ name = "x86" ∨ name = "aarch64".
Proof.
  unfold _guess_architecture.
  repeat match goal with
    | |- context [if ?b then _ else _] => destruct b
    | |- context [match ?o with Some _ => _ | None => _ end] => destruct o
    end; intros [= <-]; auto.
Qed.

(** C6, at a host that is none of the known variants (a 32-bit big-endian
    MIPS): the detection does not raise [UnhandledArchitectureType] but
    [NameError]. *)
Theorem C6_unknown_host_raises_NameError :
  get_arch ida_py_globals (Host ["zero"; "at"; "v0"; "sp"; "ra"] false "mipsb")
    = Raise (NameError "info").
Proof. reflexivity. Qed.

(** The same happens on a 64-bit ARM host, so ["aarch64"] is never detected. *)
Example guess_architecture_arm64 :
  _guess_architecture ida_py_globals (Host ["X0"; "X1"; "SP"] true "ARM")
    = Raise (NameError "info").
Proof. reflexivity. Qed.

(** Had the test read [inf], the name bound two lines above, the same hosts
    would get what the claim says. *)
Example guess_architecture_with_inf :
  let mips := Host ["zero"; "at"; "v0"; "sp"; "ra"] false "mipsb" in
  let arm64 := Host ["X0"; "X1"; "SP"] true "ARM" in
  _guess_architecture {[ "info" := mips ]} mips
    = Raise (UnhandledArchitectureType "Unrecognized archictecture: mipsb") ∧
  _guess_architecture {[ "info" := arm64 ]} arm64 = Ok "aarch64".
Proof. split; reflexivity. Qed.

(** * Further properties *)

(** ** Operating system and architecture detection *)

Lemma read_attrs_length m names vs :
  read_attrs m names = inr vs → length vs = length names.
Proof.
  revert vs. induction names as [|n ns IH]; intros vs; simpl.
  - by intros [= <-].
  - destruct (m !! n); [|done].
    destruct (read_attrs m ns) as [e|ws]; [done|].
    intros [= <-]. simpl. by rewrite (IH ws).
Qed.

Lemma guess_os_names h name :
  _guess_os h = inr name →
  name = "linux" ∨ name = "macos" ∨ name = "windows".
Proof.
  unfold _guess_os.
  repeat match goal with
    | |- context [if ?b then _ else _] => destruct b
    | |- context [match ?o with inl _ => _ | inr _ => _ end] => destruct o
    end; intros [= <-]; auto.
Qed.

(** [get_os] fails exactly as [_guess_os] fails, and returns the object of
    the name that [_guess_os] returns: its last branch (``Missing operating
    system object type'') is never taken. *)
Theorem get_os_follows_guess (h : os_host) :
  (∀ e, get_os h = inl e ↔ _guess_os h = inl e) ∧
  (∀ o, get_os h = inr o ↔ _guess_os h = inr (os_name o)).
Proof.
  unfold get_os. destruct (_guess_os h) as [e|name] eqn:Hg.
  - split; [intros e'; split; congruence|]. intros o. split; discriminate.
  - destruct (guess_os_names h name Hg) as [-> | [-> | ->]]; simpl;
      (split; [intros e; split; discriminate|]);
      intros []; split; (reflexivity || discriminate).
Qed.

(** With the ABI name [OSX] the answer is [macos] whatever the file type and
    whatever [ida_ida] defines.  Otherwise the three constants of the first
    tuple are read before the file type is compared with any of them: if
    [ida_ida] has [f_ELF] but no [g_AOUT], the detection ends in
    [AttributeError] for every file type, ELF included. *)
Theorem guess_os_edges (h : os_host) :
  (get_abi_name h = "OSX" → get_os h = inr MacOS) ∧
  (get_abi_name h ≠ "OSX" → is_Some (ida_ida h !! "f_ELF") →
   ida_ida h !! "g_AOUT" = None →
   _guess_os h = inl (AttributeError "g_AOUT") ∧
   get_os h = inl (AttributeError "g_AOUT")).
Proof.
  split.
  - intros Habi. unfold get_os, _guess_os. by rewrite Habi.
  - intros Habi [v Hv] Hn.
    assert (Hg : _guess_os h = inl (AttributeError "g_AOUT")).
    { unfold _guess_os.
      destruct (String.eqb_spec "OSX" (get_abi_name h)) as [E|_];
        [by rewrite <- E in Habi|].
      simpl. by rewrite Hv, Hn. }
    split; [done|]. unfold get_os. by rewrite Hg.
Qed.

Lemma guess_os_edges_witness :
  let h := OsHost "SYSV" 18 {[ "f_ELF" := 18; "f_COFF" := 10 ]} in
  _guess_os h = inl (AttributeError "g_AOUT") ∧
  get_os h = inl (AttributeError "g_AOUT").
Proof.
  apply (proj2 (guess_os_edges
                  (OsHost "SYSV" 18 {[ "f_ELF" := 18; "f_COFF" := 10 ]}))).
  - discriminate.
  - by eexists.
  - reflexivity.
Defined.

(** When [ida_ida] defines the nine constants that [_guess_os] reads, the
    detection raises nothing but [UnhandledOSException], and it does so only
    for a file type that is none of the nine. *)
Theorem guess_os_defined_constants (h : os_host) vs :
  read_attrs (ida_ida h)
    ["f_ELF"; "g_AOUT"; "f_COFF"; "g_MACHO"; "g_PE"; "f_EXE"; "f_EXE_old";
     "f_COM"; "f_COM_old"] = inr vs →
  match get_os h with
  | inr _ => get_abi_name h = "OSX" ∨ filetype h ∈ vs
  | inl e => e = UnhandledOSException "Unrecognized OS type" ∧
             get_abi_name h ≠ "OSX" ∧ filetype h ∉ vs
  end.
Proof.
  intros Hvs. simpl in Hvs.
  repeat match type of Hvs with
    | context [ida_ida h !! ?n] =>
        let v := fresh "v" in
        destruct (ida_ida h !! n) as [v|] eqn:?; [|discriminate Hvs]
    end.
  injection Hvs as <-.
  unfold get_os, _guess_os.
  destruct (String.eqb_spec "OSX" (get_abi_name h)) as [E|NE]; [by left|].
  simpl.
  repeat match goal with
    | H : ida_ida h !! _ = Some _ |- _ => rewrite H; clear H
    end.
  repeat case_bool_decide; simpl;
    try (right; set_solver).
  split; [done|]. split; [congruence|]. set_solver.
Qed.

Lemma guess_os_defined_constants_witness :
  let h := OsHost "SYSV" 11
             (list_to_map
                [("f_ELF", 18); ("g_AOUT", 20); ("f_COFF", 10);
                 ("g_MACHO", 25); ("g_PE", 11); ("f_EXE", 22);
                 ("f_EXE_old", 0); ("f_COM", 23); ("f_COM_old", 1)]) in
  match get_os h with
  | inr _ => get_abi_name h = "OSX" ∨
             filetype h ∈ [18; 20; 10; 25; 11; 22; 0; 23; 1]
  | inl e => e = UnhandledOSException "Unrecognized OS type" ∧
             get_abi_name h ≠ "OSX" ∧
             filetype h ∉ [18; 20; 10; 25; 11; 22; 0; 23; 1]
  end.
Proof.
  apply (guess_os_defined_constants
           (OsHost "SYSV" 11
             (list_to_map
                [("f_ELF", 18); ("g_AOUT", 20); ("f_COFF", 10);
                 ("g_MACHO", 25); ("g_PE", 11); ("f_EXE", 22);
                 ("f_EXE_old", 0); ("f_COM", 23); ("f_COM_old", 1)]))).
  reflexivity.
Defined.

(** [get_arch] fails exactly as [_guess_architecture] fails, and returns the
    object of the name that [_guess_architecture] returns: its last branch
    (``Missing architecture object type'') is never taken.  On a host whose
    register names include [ax] and [xmm0] the answer is [AMD64Arch] or
    [X86Arch] by the bit width alone, whatever names the module binds. *)
Theorem get_arch_follows_guess (globals : gmap string host) (h : host) :
  (∀ e, get_arch globals h = Raise e ↔ _guess_architecture globals h = Raise e) ∧
  (∀ a, get_arch globals h = Ok a ↔
        _guess_architecture globals h = Ok (arch_name a)) ∧
  get_arch globals h ≠ OutOfFuel ∧
  (bool_decide ("ax" ∈ ph_get_regnames h)
     && bool_decide ("xmm0" ∈ ph_get_regnames h) = true →
   get_arch globals h = Ok (if is_64bit h then AMD64Arch else X86Arch)).
Proof.
  assert (Hnf : _guess_architecture globals h ≠ OutOfFuel).
  { unfold _guess_architecture.
    repeat match goal with
      | |- context [if ?b then _ else _] => destruct b
      | |- context [match ?o with Some _ => _ | None => _ end] => destruct o
      end; done. }
  split; [|split; [|split]].
  - intros e. unfold get_arch.
    destruct (_guess_architecture globals h) as [name | e' |] eqn:Hg;
      [|split; congruence..].
    destruct (guess_architecture_names globals h name Hg) as [-> | [-> | ->]];
      simpl; split; discriminate.
  - intros a. unfold get_arch.
    destruct (_guess_architecture globals h) as [name | e' |] eqn:Hg;
      [|split; discriminate..].
    destruct (guess_architecture_names globals h name Hg) as [-> | [-> | ->]];
      simpl; destruct a; split; (reflexivity || discriminate).
  - unfold get_arch.
    destruct (_guess_architecture globals h) as [name | e' |] eqn:Hg;
      [|done..].
    destruct (guess_architecture_names globals h name Hg) as [-> | [-> | ->]];
      simpl; done.
  - intros Hx. unfold get_arch, _guess_architecture. rewrite Hx.
    by destruct (is_64bit h).
Qed.

Lemma get_arch_follows_guess_witness :
  get_arch ida_py_globals (Host ["ax"; "bx"; "xmm0"] true "metapc")
    = Ok AMD64Arch.
Proof.
  apply (proj2 (proj2 (proj2
           (get_arch_follows_guess ida_py_globals
              (Host ["ax"; "bx"; "xmm0"] true "metapc"))))).
  reflexivity.
Defined.

(** ** Which types are cached *)

Section Caching.
Context (db : ida).

Lemma returns_bind {A} r (m : M cstate A) (k : A → M cstate ref) :
  (∀ a, returns r (k a)) → returns r (bind m k).
Proof.
  intros Hk st a st'. unfold bind.
  destruct (m st) as [[x | e |] st1]; [|done..]. apply Hk.
Qed.

Lemma returns_ret r : returns r (ret r).
Proof. by intros st a st' [= <- _]. Qed.

Lemma caches_entered nd ty (k : ref → M cstate ref) :
  (∀ r, keeps 0 (k r)) → (∀ r, returns r (k r)) →
  caches ty (r <- alloc nd ;; cache_set ty r ;;; k r)%py.
Proof.
  intros Hkeep Hret st. unfold bind, alloc, cache_set. simpl.
  set (st1 := CState (heap st ++ [nd]) (<[ty:=length (heap st)]> (cache st))).
  destruct (Hkeep (length (heap st)) st1) as (_ & _ & Hsub); [lia|].
  split.
  - eapply lookup_weaken; [|exact Hsub]. subst st1. simpl.
    apply lookup_insert_eq.
  - intros a Ha. specialize (Hret (length (heap st)) st1 a).
    destruct (k (length (heap st)) st1) as [res st2]. simpl in Ha.
    subst res. by apply (Hret st2).
Qed.

Ltac chain_tac pred :=
  repeat (match goal with
          | |- _ → pred _ (if ?b then _ else _) => destruct b eqn:?
          end; cbn [orb]).

Ltac keeps0_tac Hc :=
  repeat first
    [ apply keeps_ret | apply keeps_raise | apply keeps_alloc
    | (apply keeps_update; lia) | apply Hc
    | (apply keeps_add_parameters; [|lia])
    | (apply keeps_add_members; [|lia])
    | apply keeps_if
    | (apply keeps_bind; [|intros ?]) ].

Ltac returns_tac :=
  repeat first [ apply returns_ret | (apply returns_bind; intros ?) ].

Lemma convert_miss_caches conv ty :
  (∀ L ty, keeps L (conv ty)) →
  caching_case (tinfo_of db ty) = true → caches ty (convert_miss db conv ty).
Proof.
  intros Hc. unfold convert_miss, caching_case. cbv zeta.
  generalize (tinfo_of db ty). intros t.
  chain_tac @caches; try discriminate; intros _;
    try destruct (is_struct t);
    (apply caches_entered; [intros r0; keeps0_tac Hc | intros r0; returns_tac]).
Qed.

Lemma convert_miss_leaf_or_fails conv ty :
  caching_case (tinfo_of db ty) = false →
  leaf_or_fails ty (convert_miss db conv ty).
Proof.
  unfold convert_miss, caching_case. cbv zeta.
  generalize (tinfo_of db ty). intros t.
  chain_tac @leaf_or_fails; try discriminate; intros _ st;
    first [ left; eexists; reflexivity | right; eexists; reflexivity ].
Qed.

End Caching.

(** After the conversion of a type that was not in the cache, however the
    conversion ends, the type is in the cache exactly if it reaches one of
    the caching cases, and then with the node that was allocated first. *)
Theorem cache_entry_after_conversion (db : ida) ty st :
  cache st !! ty = None →
  cache (_convert_ida_type db ty st).2 !! ty =
    if caching_case (tinfo_of db ty) then Some (length (heap st)) else None.
Proof.
  intros Hc. rewrite (convert_miss_eq _ _ _ Hc).
  destruct (caching_case (tinfo_of db ty)) eqn:Hk.
  - apply convert_miss_caches; [apply convert_keeps|done].
  - destruct (convert_miss_leaf_or_fails db (_convert_ida_type db) ty Hk st)
      as [[nd ->] | [msg ->]]; done.
Qed.

Lemma cache_entry_after_conversion_witness :
  cache (_convert_ida_type ex_db 1 (CState [] ∅)).2 !! 1%nat = Some 0%nat ∧
  cache (_convert_ida_type ex_db 6 (CState [] ∅)).2 !! 6%nat = None.
Proof.
  split.
  - apply (cache_entry_after_conversion ex_db 1%nat (CState [] ∅)).
    reflexivity.
  - apply (cache_entry_after_conversion ex_db 6%nat (CState [] ∅)).
    reflexivity.
Defined.

(** A type that reaches no caching case is converted without recursion: the
    conversion either appends one node to the store and returns it, or raises
    [UnhandledTypeException] for that very type; the cache, and in the second
    case the whole state, is as before. *)
Theorem uncached_type_is_leaf_or_fails (db : ida) ty st :
  cache st !! ty = None → caching_case (tinfo_of db ty) = false →
  (∃ nd, _convert_ida_type db ty st =
           (Ok (length (heap st)), CState (heap st ++ [nd]) (cache st))) ∨
  (∃ msg, _convert_ida_type db ty st =
            (Raise (UnhandledTypeException msg (VTinfo ty)), st)).
Proof.
  intros Hc Hk. rewrite (convert_miss_eq _ _ _ Hc).
  by apply convert_miss_leaf_or_fails.
Qed.

Lemma uncached_type_is_leaf_or_fails_witness :
  (∃ nd, _convert_ida_type ex_db 10 (CState [] ∅) =
           (Ok 0%nat, CState ([] ++ [nd]) ∅)) ∨
  (∃ msg, _convert_ida_type ex_db 10 (CState [] ∅) =
            (Raise (UnhandledTypeException msg (VTinfo 10)), CState [] ∅)).
Proof.
  apply (uncached_type_is_leaf_or_fails ex_db 10%nat (CState [] ∅));
    reflexivity.
Defined.

(** De-duplication: once the conversion of a type of a caching case has
    returned a node, every later conversion of that type with the same cache
    returns the very same node and changes nothing. *)
Theorem cached_type_is_converted_once (db : ida) ty st r st' :
  cache st !! ty = None → caching_case (tinfo_of db ty) = true →
  _convert_ida_type db ty st = (Ok r, st') →
  r = length (heap st) ∧ cache st' !! ty = Some r ∧
  _convert_ida_type db ty st' = (Ok r, st').
Proof.
  intros Hc Hk Hrun. rewrite (convert_miss_eq _ _ _ Hc) in Hrun.
  destruct (convert_miss_caches db (_convert_ida_type db) ty
              (convert_keeps db) Hk st) as [Hin Hret].
  rewrite Hrun in Hin, Hret. simpl in Hin, Hret.
  rewrite (Hret r eq_refl). split; [done|]. split; [done|].
  by apply convert_hit.
Qed.

Lemma cached_type_is_converted_once_witness :
  let st' := (_convert_ida_type ex_db 1 (CState [] ∅)).2 in
  0%nat = length (heap (CState [] ∅)) ∧ cache st' !! 1%nat = Some 0%nat ∧
  _convert_ida_type ex_db 1 st' = (Ok 0%nat, st').
Proof.
  apply (cached_type_is_converted_once ex_db 1%nat (CState [] ∅));
    reflexivity.
Defined.

Section Uncached.
Context (db : ida) (ty : handle).
Hypothesis uncached_ty : caching_case (tinfo_of db ty) = false.

Ltac skips_tac Hc Hne :=
  repeat first
    [ apply skips_ret | apply skips_raise | apply skips_alloc
    | apply skips_update | (apply skips_cache_set; exact Hne) | apply Hc
    | apply skips_add_parameters | apply skips_add_members
    | apply skips_if
    | (apply skips_bind; [|intros ?]) ].

Lemma convert_body_skips_uncached conv :
  (∀ ty', skips ty (conv ty')) → ∀ ty', skips ty (convert_body db conv ty').
Proof.
  intros Hc ty' st Hst.
  destruct (cache st !! ty') as [r|] eqn:Hhit.
  { by rewrite (convert_body_hit _ _ _ _ _ Hhit). }
  rewrite (convert_body_miss _ _ _ _ Hhit).
  destruct (decide (ty' = ty)) as [->|Hne].
  { destruct (convert_miss_leaf_or_fails db conv ty uncached_ty st)
      as [[nd ->] | [msg ->]]; done. }
  clear Hhit. revert st Hst. change (skips ty (convert_miss db conv ty')).
  unfold convert_miss. cbv zeta. generalize (tinfo_of db ty'). intros t.
  skips_tac Hc Hne.
Qed.

Lemma convert_fuel_skips_uncached n ty' : skips ty (convert_fuel db n ty').
Proof.
  revert ty'. induction n as [|n IH]; intros ty'.
  - apply skips_diverge.
  - simpl. by apply convert_body_skips_uncached.
Qed.

End Uncached.

(** The cache holds nothing but types of the caching cases: if that is so
    before a conversion, of whatever type, it is so after it, however the
    conversion ends.  So void, bool, integer and floating point types, and
    every type that the conversion rejects, never get an entry. *)
Theorem cache_holds_caching_types_only (db : ida) st root :
  (∀ k, is_Some (cache st !! k) → caching_case (tinfo_of db k) = true) →
  ∀ k, is_Some (cache (_convert_ida_type db root st).2 !! k) →
       caching_case (tinfo_of db k) = true.
Proof.
  intros Hinv k Hk.
  destruct (caching_case (tinfo_of db k)) eqn:Hc; [done|].
  assert (Hnone : cache st !! k = None).
  { destruct (cache st !! k) eqn:E; [|done].
    rewrite Hinv in Hc; [done|]. rewrite E. eauto. }
  pose proof (convert_fuel_skips_uncached db k Hc
                (S (size (types db))) root st Hnone) as Hs.
  unfold _convert_ida_type in Hk. rewrite Hs in Hk. by destruct Hk.
Qed.

Lemma cache_holds_caching_types_only_witness :
  caching_case (tinfo_of ex_db 2) = true.
Proof.
  apply (cache_holds_caching_types_only ex_db (CState [] ∅) 8%nat).
  - intros k Hk. simpl in Hk. rewrite lookup_empty in Hk. by destruct Hk.
  - exists 3%nat. reflexivity.
Defined.

(** ** The session *)

Lemma convert_miss_returns_new (db : ida) ty st r st' :
  cache st !! ty = None → _convert_ida_type db ty st = (Ok r, st') →
  r = length (heap st).
Proof.
  intros Hc Hrun. rewrite (convert_miss_eq _ _ _ Hc) in Hrun.
  destruct (caching_case (tinfo_of db ty)) eqn:Hk.
  - destruct (convert_miss_caches db (_convert_ida_type db) ty
                (convert_keeps db) Hk st) as [_ Hret].
    rewrite Hrun in Hret. by apply Hret.
  - destruct (convert_miss_leaf_or_fails db (_convert_ida_type db) ty Hk st)
      as [[nd E] | [msg E]]; rewrite E in Hrun; by injection Hrun.
Qed.

Lemma convert_with_new_cache_frame (db : ida) h w :
  let w' := (convert_with_new_cache db h w).2 in
  _FUNCTIONS w' = _FUNCTIONS w ∧ w_next w' = w_next w ∧
  w_stdout w' = w_stdout w ∧
  (∀ i nd, w_heap w !! i = Some nd → w_heap w' !! i = Some nd) ∧
  (∀ r, (convert_with_new_cache db h w).1 = Ok r → r = length (w_heap w)).
Proof.
  unfold convert_with_new_cache.
  destruct (convert_keeps db (length (w_heap w)) h (CState (w_heap w) ∅))
    as (Hlen & Hold & _); [done|].
  pose proof (convert_miss_returns_new db h (CState (w_heap w) ∅)) as Hnew.
  destruct (_convert_ida_type db h (CState (w_heap w) ∅)) as [res st'].
  simpl in *. repeat split; try done.
  - intros i nd Hi. rewrite Hold; [done|]. by eapply lookup_lt_Some.
  - intros r ->. by apply (Hnew r st' (lookup_empty _)).
Qed.

Lemma get_type_changes (db : ida) x w :
  let w' := (get_type db x w).2 in
  _FUNCTIONS w' = _FUNCTIONS w ∧ w_next w' = w_next w ∧
  w_stdout w' = w_stdout w ∧
  (∀ i nd, w_heap w !! i = Some nd → w_heap w' !! i = Some nd) ∧
  (∀ r, converted_value x = true → (get_type db x w).1 = Ok r →
        r = length (w_heap w)).
Proof.
  pose proof (convert_with_new_cache_frame db) as Hc.
  assert (Hv : let w' := (new_void w).2 in
    _FUNCTIONS w' = _FUNCTIONS w ∧ w_next w' = w_next w ∧
    w_stdout w' = w_stdout w ∧
    (∀ i nd, w_heap w !! i = Some nd → w_heap w' !! i = Some nd) ∧
    (∀ r, (new_void w).1 = Ok r → r = length (w_heap w))).
  { simpl. repeat split; try done.
    - intros i nd Hi. by apply lookup_app_l_Some.
    - intros r E. congruence. }
  destruct Hv as (V1 & V2 & V3 & V4 & V5).
  destruct x as [r0|f|h|z| |s]; simpl.
  - repeat split; done.
  - repeat split; done.
  - destruct (Hc h w) as (H1 & H2 & H3 & H4 & H5). repeat split; try done.
    intros r _. apply H5.
  - destruct (recover_tinfo db (VInt z)) as [h|];
      repeat destruct (negb _);
      try (destruct (Hc h w) as (H1 & H2 & H3 & H4 & H5));
      repeat split; try done; try (intros r _);
      first [ apply H5 | apply V5 | apply V4 | discriminate ].
  - destruct (recover_tinfo db VNone) as [h|];
      repeat destruct (negb _);
      try (destruct (Hc h w) as (H1 & H2 & H3 & H4 & H5));
      repeat split; try done; try (intros r _);
      first [ apply H5 | apply V5 | apply V4 | discriminate ].
  - destruct (recover_tinfo db (VStr s)) as [h|];
      repeat destruct (negb _);
      try (destruct (Hc h w) as (H1 & H2 & H3 & H4 & H5));
      repeat split; try done; try (intros r _);
      first [ apply H5 | apply V5 | apply V4 | discriminate ].
Qed.

(** [get_type] changes no node that existed before the call, touches neither
    the registry nor the output, and constructs no [Function]; and what it
    returns for a [tinfo_t] or an address is never a node that existed
    before the call: every call converts with a cache of its own, so two
    calls share no node. *)
Theorem get_type_frame (db : ida) x w :
  let w' := (get_type db x w).2 in
  _FUNCTIONS w' = _FUNCTIONS w ∧ w_next w' = w_next w ∧
  w_stdout w' = w_stdout w ∧
  (∀ i nd, w_heap w !! i = Some nd → w_heap w' !! i = Some nd) ∧
  (∀ r, converted_value x = true → (get_type db x w).1 = Ok r →
        r = length (w_heap w)).
Proof. apply get_type_changes. Qed.

(** Whether [get_function] returns or raises, and the exception it raises,
    is decided by the host and the address alone: it is the same in every
    session (whatever the store, the registry and the output hold) and for
    every architecture argument. *)
Theorem get_function_outcome_is_stable (db : ida) arch1 arch2 a w1 w2 :
  same_status (get_function db arch1 a w1).1 (get_function db arch2 a w2).1.
Proof.
  rewrite !get_function_eq.
  destruct (checked_region db a) as [f|]; [|done].
  pose proof (get_type_status db (VInt (start_ea f)) w1 w2) as Hs.
  destruct (get_type db (VInt (start_ea f)) w1) as [[ft1 | e1 |] wa],
           (get_type db (VInt (start_ea f)) w2) as [[ft2 | e2 |] wb];
    simpl in Hs; try done.
  - unfold register.
    by destruct (_FUNCTIONS wa !! start_ea f), (_FUNCTIONS wb !! start_ea f).
  - subst e2. by destruct e1.
Qed.

(** What [get_function] does to the registry.  When it raises, the registry
    is as before and no entity was constructed.  When it returns [fn], the
    registry is the one before with [fn] under the start address of the
    region, every other entry untouched; [fn] is either the entity that was
    there, or a new one, whose fields are the arguments of the call and the
    region found.  In both cases no node of the store that existed before is
    changed. *)
Theorem get_function_registry_effect (db : ida) arch a w :
  let w' := (get_function db arch a w).2 in
  (∀ e, (get_function db arch a w).1 = Raise e →
        _FUNCTIONS w' = _FUNCTIONS w ∧ w_next w' = w_next w) ∧
  (∀ fn, (get_function db arch a w).1 = Ok fn →
     ∃ f, checked_region db a = Some f ∧
       _FUNCTIONS w' = <[start_ea f := fn]> (_FUNCTIONS w) ∧
       ((_FUNCTIONS w !! start_ea f = Some fn ∧ w_next w' = w_next w) ∨
        (_FUNCTIONS w !! start_ea f = None ∧ w_next w' = S (w_next w) ∧
         fn_id fn = w_next w ∧ fn_arch fn = arch ∧
         address fn = start_ea f ∧ _ida_func fn = f))) ∧
  (∀ i nd, w_heap w !! i = Some nd → w_heap w' !! i = Some nd).
Proof.
  rewrite get_function_eq.
  destruct (checked_region db a) as [f|]; [|by repeat split].
  destruct (get_type_changes db (VInt (start_ea f)) w)
    as (Hreg & Hnext & _ & Hheap & _).
  destruct (get_type db (VInt (start_ea f)) w) as [[ft | e |] w1];
    simpl in Hreg, Hnext, Hheap.
  - unfold register. rewrite Hreg, Hnext.
    destruct (_FUNCTIONS w !! start_ea f) as [g|] eqn:Hg; simpl.
    + split; [done|]. split; [|done].
      intros fn [= <-]. exists f. split; [done|].
      split; [by rewrite insert_id|]. by left.
    + split; [done|]. split; [|done].
      intros fn [= <-]. exists f. split; [done|]. split; [done|].
      right. done.
  - destruct e; simpl; repeat split; done.
  - simpl. repeat split; done.
Qed.

(** ** The nodes that a conversion builds *)

Ltac use_case' H :=
  unfold vector_case, udt_case, enum_case, typeref_case in H; use_case H.

Lemma alter_as_insert {A} (f : A → A) (l : list A) i x :
  l !! i = Some x → alter f i l = <[i := f x]> l.
Proof.
  intros Hi. apply list_eq. intros j.
  destruct (decide (j = i)) as [->|Hne].
  - rewrite list_lookup_alter_eq, Hi. simpl.
    rewrite list_lookup_insert_eq; [done|]. by eapply lookup_lt_Some.
  - by rewrite list_lookup_alter_ne, list_lookup_insert_ne.
Qed.

Lemma alter_twice_as_insert {A} (f g : A → A) (l : list A) i x :
  l !! i = Some x → alter f i (alter g i l) = <[i := f (g x)]> l.
Proof.
  intros Hi. rewrite list_alter_alter_eq.
  by rewrite (alter_as_insert _ _ _ _ Hi).
Qed.

Lemma convert_enum (db : ida) ty st :
  let t := tinfo_of db ty in
  let r := length (heap st) in
  cache st !! ty = None → enum_case t = true →
  _convert_ida_type db ty st =
    (u <- _convert_ida_type db (get_enum_base_type t) ;;
     update r (set_underlying_type u) ;;;
     ret r)%py (entered st ty (EnumType None)).
Proof.
  intros t r Hc Hk. rewrite (convert_miss_eq _ _ _ Hc). unfold convert_miss.
  fold t. cbv zeta. use_case' Hk. reflexivity.
Qed.

Lemma convert_typeref (db : ida) ty st :
  let t := tinfo_of db ty in
  let r := length (heap st) in
  cache st !! ty = None → typeref_case t = true →
  _convert_ida_type db ty st =
    (u <- _convert_ida_type db (get_realtype t) ;;
     update r (set_underlying_type u) ;;;
     ret r)%py (entered st ty (TypedefType None)).
Proof.
  intros t r Hc Hk. rewrite (convert_miss_eq _ _ _ Hc). unfold convert_miss.
  fold t. cbv zeta. use_case' Hk. reflexivity.
Qed.

(** The node [r] of [entered st ty nd] is still [nd] after the conversion of
    a child. *)
Lemma entered_node_kept (db : ida) st ty nd c :
  heap (_convert_ida_type db c (entered st ty nd)).2 !! length (heap st)
    = Some nd.
Proof.
  destruct (convert_keeps db (S (length (heap st))) c (entered st ty nd))
    as (_ & Hkeep & _).
  { unfold entered. simpl. rewrite length_app. simpl. lia. }
  rewrite Hkeep by lia. unfold entered. simpl.
  by rewrite (lookup_tail _ _ _ 0%nat) by lia.
Qed.

(** Pointer, array, enumerator and type alias.  The conversion of such a type
    that is not in the cache is the conversion of its one child, started with
    the new node of the type already in the cache; if that raises, so does
    the whole; if it returns [e], the result is the new node, which now holds
    [e] (and, for an array, the element count that the type reports, be it
    zero), in a state that is otherwise the one the child left. *)
Theorem one_child_node (db : ida) ty st nd0 c fin :
  let r := length (heap st) in
  cache st !! ty = None → one_child (tinfo_of db ty) = Some (nd0, c, fin) →
  _convert_ida_type db ty st =
    match _convert_ida_type db c (entered st ty nd0) with
    | (Ok e, st1) => (Ok r, CState (<[r := fin e]> (heap st1)) (cache st1))
    | (Raise x, st1) => (Raise x, st1)
    | (OutOfFuel, st1) => (OutOfFuel, st1)
    end.
Proof.
  intros r Hc Hone. unfold one_child in Hone.
  destruct (pointer_case (tinfo_of db ty)) eqn:Hp;
    [|destruct (array_case (tinfo_of db ty)) eqn:Ha;
      [|destruct (enum_case (tinfo_of db ty)) eqn:He;
        [|destruct (typeref_case (tinfo_of db ty)) eqn:Ht; [|done]]]];
    injection Hone as <- <- <-;
    pose proof (entered_node_kept db st ty) as Hnode;
    [ rewrite (convert_pointer db ty st Hc Hp)
    | rewrite (convert_array db ty st Hc Ha)
    | rewrite (convert_enum db ty st Hc He)
    | rewrite (convert_typeref db ty st Hc Ht) ];
    unfold bind at 1;
    match goal with
    | |- context [_convert_ida_type db ?c (entered st ty ?nd)] =>
        specialize (Hnode nd c);
        destruct (_convert_ida_type db c (entered st ty nd))
          as [[e | x |] st1]
    end; try reflexivity;
    simpl in Hnode; unfold bind, update, ret; simpl;
    first [ rewrite (alter_twice_as_insert _ _ _ _ _ Hnode)
          | rewrite (alter_as_insert _ _ _ _ Hnode) ];
    reflexivity.
Qed.

Lemma one_child_node_witness :
  _convert_ida_type ex_nodes 3 (CState [] ∅) =
    match _convert_ida_type ex_nodes 6
            (entered (CState [] ∅) 3%nat (ArrayType None None)) with
    | (Ok e, st1) =>
        (Ok 0%nat,
         CState (<[0%nat := ArrayType (Some e) (Some 0)]> (heap st1))
                (cache st1))
    | (Raise x, st1) => (Raise x, st1)
    | (OutOfFuel, st1) => (OutOfFuel, st1)
    end.
Proof.
  apply (one_child_node ex_nodes 3%nat (CState [] ∅) (ArrayType None None)
           6%nat (λ e, ArrayType (Some e) (Some 0))); reflexivity.
Defined.

(** An array that reports zero elements: the count is kept as it is. *)
Example convert_array_of_zero :
  let '(r, st) := _convert_ida_type ex_nodes 3 (CState [] ∅) in
  r = Ok 0%nat ∧
  heap st = [ArrayType (Some 1%nat) (Some 0); IntegerType 4 false] ∧
  map_to_list (cache st) = [(3%nat, 0%nat)].
Proof. vm_compute. done. Qed.

(** A type alias of an enumerator: the alias node is kept, over the
    enumerator node, over the integer. *)
Example convert_alias_of_enum :
  let '(r, st) := _convert_ida_type ex_nodes 4 (CState [] ∅) in
  r = Ok 0%nat ∧
  heap st = [TypedefType (Some 1%nat); EnumType (Some 2%nat);
             IntegerType 4 false].
Proof. vm_compute. done. Qed.

(** Vector types.  The conversion of a vector type that is not in the cache
    never fails and converts no other type: it returns a new [VectorType]
    node, caches it, and gives it the size of the type in bytes as element
    count and one new unsigned one-byte integer node as element type. *)
Theorem vector_node (db : ida) ty st :
  let t := tinfo_of db ty in
  let r := length (heap st) in
  cache st !! ty = None → vector_case t = true →
  _convert_ida_type db ty st =
    (Ok r,
     CState (heap st ++ [VectorType (Some (S r)) (Some (get_size t));
                         IntegerType 1 false])
            (<[ty := r]> (cache st))).
Proof.
  intros t r Hc Hk. rewrite (convert_miss_eq _ _ _ Hc). unfold convert_miss.
  fold t. cbv zeta. use_case' Hk.
  unfold bind, alloc, cache_set, update, ret. simpl.
  rewrite <- !app_assoc. simpl. rewrite length_app. simpl.
  rewrite !(alter_tail _ (heap st) _ _ 0%nat) by lia. simpl.
  replace (length (heap st) + 1)%nat with (S r) by (unfold r; lia).
  reflexivity.
Qed.

Lemma vector_node_witness :
  _convert_ida_type ex_nodes 1 (CState [] ∅) =
    (Ok 0%nat,
     CState [VectorType (Some 1%nat) (Some 16); IntegerType 1 false]
            (<[1%nat := 0%nat]> ∅)).
Proof.
  apply (vector_node ex_nodes 1%nat (CState [] ∅)); reflexivity.
Defined.
Lemma convert_udt (db : ida) ty st :
  let t := tinfo_of db ty in
  let r := length (heap st) in
  cache st !! ty = None → udt_case t = true →
  _convert_ida_type db ty st =
    (add_members (_convert_ida_type db) (udt_members t) r
       (get_udt_nmembers t) 0 ;;;
     ret r)%py
      (entered st ty (if is_struct t then StructureType []
                      else UnionType [])).
Proof.
  intros t r Hc Hk. rewrite (convert_miss_eq _ _ _ Hc). unfold convert_miss.
  fold t. cbv zeta. use_case' Hk. by destruct (is_struct t).
Qed.

(** The member loop visits the members [i], [i + 1], ... that
    [find_udt_member] finds, at most [n] of them. *)
Lemma add_members_spec (db : ida) (tag : list ref → node) r ms :
  (∀ e es, add_element_type e (tag es) = tag (es ++ [e])) →
  ∀ n i st st' es0,
  heap st !! r = Some (tag es0) →
  add_members (_convert_ida_type db) ms r n i st = (Ok tt, st') →
  ∃ es, elements_converted db r (take n (drop i ms)) st es st' ∧
        length es = length (take n (drop i ms)) ∧
        heap st' !! r = Some (tag (es0 ++ es)).
Proof.
  intros Htag. induction n as [|n IH]; intros i st st' es0 Hr Hrun;
    simpl in Hrun.
  - injection Hrun as <-. exists []. rewrite app_nil_r.
    split; [constructor|done].
  - destruct (ms !! i) as [m|] eqn:Hm.
    + rewrite (drop_S _ _ _ Hm). simpl.
      unfold bind at 1 in Hrun.
      destruct (_convert_ida_type db m st) as [[e | x |] st1] eqn:Hconv;
        [|done..].
      assert (Hlen : (S r ≤ length (heap st))%nat).
      { apply lookup_lt_Some in Hr. lia. }
      destruct (convert_keeps db (S r) m st Hlen) as (_ & Hkeep & _).
      rewrite Hconv in Hkeep. cbn [snd] in Hkeep.
      unfold bind at 1 in Hrun. simpl in Hrun.
      assert (Hr1 : heap (CState (alter (add_element_type e) r (heap st1))
                            (cache st1)) !! r
                    = Some (tag (es0 ++ [e]))).
      { simpl. rewrite list_lookup_alter_eq, Hkeep, Hr by lia. simpl.
        by rewrite Htag. }
      destruct (IH _ _ _ _ Hr1 Hrun) as (es & Hes & Hl & Hfin).
      exists (e :: es). split; [by econstructor|].
      split; [simpl; by rewrite Hl|]. by rewrite <- app_assoc in Hfin.
    + injection Hrun as <-. apply lookup_ge_None in Hm.
      rewrite drop_ge by done. rewrite take_nil.
      exists []. rewrite app_nil_r. split; [constructor|done].
Qed.

(** Structures and unions.  When the conversion of a structure or union that
    was not in the cache returns, the node it returns is the new node, a
    [StructureType] if the type says it is a structure and a [UnionType]
    otherwise; the members converted are the first ones that the type can
    enumerate, no more than the count it reports, in index order, each in the
    state the previous one left; and the node holds exactly their nodes, in
    that order. *)
Theorem udt_members_converted (db : ida) ty st r st' :
  let t := tinfo_of db ty in
  let tag := if is_struct t then StructureType else UnionType in
  cache st !! ty = None → udt_case t = true →
  _convert_ida_type db ty st = (Ok r, st') →
  r = length (heap st) ∧
  ∃ es,
    elements_converted db r (take (get_udt_nmembers t) (udt_members t))
      (entered st ty (tag [])) es st' ∧
    length es = (get_udt_nmembers t `min` length (udt_members t))%nat ∧
    heap st' !! r = Some (tag es).
Proof.
  intros t tag Hc Hk Hrun. rewrite convert_udt in Hrun by done.
  fold t in Hrun.
  replace (if is_struct t then StructureType [] else UnionType [])
    with (tag []) in Hrun by (unfold tag; by destruct (is_struct t)).
  set (r0 := length (heap st)) in *.
  set (st0 := entered st ty (tag [])) in *.
  assert (H0 : heap st0 !! r0 = Some (tag [])).
  { unfold st0, entered. simpl.
    by rewrite (lookup_tail _ _ r0 0%nat) by (unfold r0; lia). }
  unfold bind at 1 in Hrun.
  destruct (add_members (_convert_ida_type db) (udt_members t) r0
              (get_udt_nmembers t) 0 st0) as [[[] | x |] st2] eqn:Hloop;
    [|done..].
  injection Hrun as <- <-.
  destruct (add_members_spec db tag r0 (udt_members t)) with (3 := Hloop)
    (es0 := @nil nat) as (es & Hes & Hl & Hfin).
  { intros e es. unfold tag. by destruct (is_struct t). }
  { done. }
  rewrite drop_0 in Hes, Hl. split; [done|]. exists es.
  split; [done|]. split; [|done]. by rewrite Hl, length_take.
Qed.

Lemma udt_members_converted_witness :
  let st' := (_convert_ida_type ex_nodes 2 (CState [] ∅)).2 in
  0%nat = length (heap (CState [] ∅)) ∧
  ∃ es,
    elements_converted ex_nodes 0%nat (take 3 [6%nat; 3%nat])
      (entered (CState [] ∅) 2%nat (UnionType [])) es st' ∧
    length es = (3 `min` 2)%nat ∧
    heap st' !! 0%nat = Some (UnionType es).
Proof.
  apply (udt_members_converted ex_nodes 2%nat (CState [] ∅) 0%nat);
    reflexivity.
Defined.

(** The union of the example host reports three members and can enumerate
    two: the loop stops after the second, and the conversion returns. *)
Example convert_union_of_two :
  let '(r, st) := _convert_ida_type ex_nodes 2 (CState [] ∅) in
  r = Ok 0%nat ∧
  heap st = [UnionType [1%nat; 2%nat]; IntegerType 4 false;
             ArrayType (Some 3%nat) (Some 0); IntegerType 4 false].
Proof. vm_compute. done. Qed.

(** Floating point types.  For a type that is not in the cache and reaches
    the floating point case, the conversion returns a new leaf, the one of
    the first of [is_ldouble], [is_double], [is_float] that holds: the
    unpadded size of the type for a long double (also when [is_double] holds
    as well), 8 bytes for a double, 4 for a float; when none holds it raises
    [UnhandledTypeException] and the state is as before. *)
Theorem floating_precedence_followed (db : ida) ty st :
  let t := tinfo_of db ty in
  cache st !! ty = None → floating_case t = true →
  _convert_ida_type db ty st =
    match classify_floating t with
    | Some nd => (Ok (length (heap st)), CState (heap st ++ [nd]) (cache st))
    | None =>
        (Raise (UnhandledTypeException
                  ("Unhandled floating point type: " +:+ dstr t)
                  (VTinfo ty)), st)
    end.
Proof.
  intros t Hc Hk. rewrite (convert_miss_eq _ _ _ Hc). unfold convert_miss.
  fold t. cbv zeta. use_case Hk.
  unfold classify_floating, floating_precedence. simpl.
  repeat match goal with
    | |- context [if ?b then _ else _] => destruct b
    end; reflexivity.
Qed.

Lemma floating_precedence_followed_witness :
  _convert_ida_type ex_nodes 7 (CState [] ∅) =
    (Ok 0%nat, CState [FloatingPointType 10] ∅).
Proof.
  apply (floating_precedence_followed ex_nodes 7%nat (CState [] ∅));
    reflexivity.
Defined.

(** ** The store that a conversion leaves is closed and complete *)

Section Closed.
Context (db : ida) (lo : nat).
Local Open Scope nat_scope.

Lemma hoare_bind {A B} P (m : M cstate A) Q (k : A → M cstate B) R :
  hoare P m Q → (∀ a, hoare (Q a) (k a) R) → hoare P (bind m k) R.
Proof.
  intros Hm Hk st b st' HP. unfold bind.
  destruct (m st) as [[a | e |] st1] eqn:Hrun; [|done..].
  intros Hk'. eapply Hk; [|exact Hk']. by eapply Hm.
Qed.

Lemma hoare_pre {A} (P P' : cstate → Prop) (m : M cstate A) Q :
  (∀ st, P st → P' st) → hoare P' m Q → hoare P m Q.
Proof. intros HP Hm st a st' H. apply Hm. by apply HP. Qed.

Lemma hoare_raise {A} P e Q : hoare P (@raise cstate A e) Q.
Proof. by intros st a st' _. Qed.

Lemma hoare_if {A} P (b : bool) (m1 m2 : M cstate A) Q :
  hoare P m1 Q → hoare P m2 Q → hoare P (if b then m1 else m2) Q.
Proof. by destruct b. Qed.

Lemma hoare_ret_unit P : hoare P (ret tt) (λ _, P).
Proof. by intros st a st' HP [= _ <-]. Qed.

Lemma hoare_ret {A} (P : cstate → Prop) (a : A) :
  hoare P (ret a) (λ b st, b = a ∧ P st).
Proof. by intros st b st' HP [= <- <-]. Qed.

Lemma building_weaken r (P P' : node → Prop) st :
  (∀ nd, P nd → P' nd) → building lo r P st → building lo r P' st.
Proof.
  intros HP (H1 & H2 & H3 & H4 & nd & Hnd & HPnd).
  split; [done|]. split; [done|]. split; [done|]. split; [done|].
  exists nd. split; [done|]. by apply HP.
Qed.

(** The conversion of a child, while [r] is under construction. *)
Lemma hoare_conv conv r P c :
  conv_ok lo conv → (∀ L ty, keeps L (conv ty)) →
  hoare (building lo r P) (conv c)
        (λ e st, building lo r P st ∧ lo ≤ e < length (heap st)).
Proof.
  intros Hok Hkeep st e st' (Hcl & Hca & Hco & Hlo & nd & Hnd & HP) Hrun.
  pose proof (lookup_lt_Some _ _ _ Hnd) as Hr.
  destruct (Hok c st e st') as (Hcl' & Hca' & He & Hco'); [lia|done..|].
  destruct (Hkeep (length (heap st)) c st) as (Hlen & Hold & _); [done|].
  rewrite Hrun in Hlen, Hold. simpl in Hlen, Hold.
  split; [|done]. split; [done|]. split; [done|]. split; [|split; [done|]].
  - intros i x Hi Hx.
    destruct (decide (i < length (heap st))) as [Hlt|Hge].
    + rewrite Hold in Hx by done. by eapply Hco.
    + eapply Hco'; [|exact Hx]. lia.
  - exists nd. split; [|done]. by rewrite Hold.
Qed.

(** A leaf allocated while [r] is under construction. *)
Lemma hoare_alloc r P nd :
  refs_of nd = [] → complete nd = true →
  hoare (building lo r P) (alloc nd)
        (λ e st, building lo r P st ∧ lo ≤ e < length (heap st)).
Proof.
  intros Hrefs Hcomp st e st' (Hcl & Hca & Hco & Hlo & x & Hx & HP)
    [= <- <-].
  pose proof (lookup_lt_Some _ _ _ Hx) as Hr.
  split; [|simpl; rewrite length_app; simpl; lia].
  split; [|split; [|split; [|split; [done|]]]].
  - intros i y z Hi Hy Hz. simpl in *. rewrite length_app. simpl.
    apply lookup_app_Some in Hy as [Hy | [_ Hy]].
    + specialize (Hcl i y z Hi Hy Hz). lia.
    + apply list_lookup_singleton_Some in Hy as [_ <-].
      rewrite Hrefs in Hz. by apply elem_of_nil in Hz.
  - intros k z Hk. simpl in *. rewrite length_app. simpl.
    specialize (Hca k z Hk). lia.
  - intros i y Hi Hy. simpl in Hy.
    apply lookup_app_Some in Hy as [Hy | [_ Hy]]; [by eapply Hco|].
    by apply list_lookup_singleton_Some in Hy as [_ <-].
  - exists x. split; [|done]. simpl. by apply lookup_app_l_Some.
Qed.

(** A setter called on [r] with references [b] that are in the store. *)
Lemma building_update r f P (b : list ref) st :
  (∀ nd x, x ∈ refs_of (f nd) → x ∈ refs_of nd ∨ x ∈ b) →
  (∀ x, x ∈ b → lo ≤ x < length (heap st)) →
  building lo r P st →
  building lo r (after f P) (CState (alter f r (heap st)) (cache st)).
Proof.
  intros Hrefs Hb (Hcl & Hca & Hco & Hlo & nd & Hnd & HP).
  split; [|split; [|split; [|split; [done|]]]].
  - intros i y z Hli Hi Hz. simpl in *. rewrite length_alter.
    destruct (decide (i = r)) as [->|Hne].
    + rewrite list_lookup_alter_eq, Hnd in Hi. injection Hi as <-.
      destruct (Hrefs nd z Hz) as [Hz' | Hz']; [by eapply Hcl|by apply Hb].
    + rewrite list_lookup_alter_ne in Hi by done. by eapply Hcl.
  - intros k z Hk. simpl in *. rewrite length_alter. by eapply Hca.
  - intros i y Hi Hy. simpl in *. rewrite list_lookup_alter_ne in Hy by lia.
    by eapply Hco.
  - exists (f nd). simpl. rewrite list_lookup_alter_eq, Hnd. split; [done|].
    by exists nd.
Qed.

Lemma hoare_update1 r f P e :
  (∀ nd x, x ∈ refs_of (f nd) → x ∈ refs_of nd ∨ x ∈ [e]) →
  hoare (λ st, building lo r P st ∧ lo ≤ e < length (heap st)) (update r f)
        (λ _, building lo r (after f P)).
Proof.
  intros Hrefs st a st' [Hb He] [= _ <-].
  apply (building_update r f P [e]); [done| |done].
  by intros x ->%list_elem_of_singleton.
Qed.

Lemma hoare_update0 r f P :
  (∀ nd x, x ∈ refs_of (f nd) → x ∈ refs_of nd ∨ x ∈ []) →
  hoare (building lo r P) (update r f) (λ _, building lo r (after f P)).
Proof.
  intros Hrefs st a st' Hb [= _ <-].
  apply (building_update r f P []); [done| |done].
  by intros x ?%elem_of_nil.
Qed.

(** The setters add no reference but their argument, and those of the loops
    and of the calling convention keep a complete node complete. *)
Lemma refs_set_element_type e nd x :
  x ∈ refs_of (set_element_type e nd) → x ∈ refs_of nd ∨ x ∈ [e].
Proof. destruct nd; simpl; set_solver. Qed.

Lemma refs_set_num_elements k nd x :
  x ∈ refs_of (set_num_elements k nd) → x ∈ refs_of nd ∨ x ∈ [].
Proof. destruct nd; simpl; set_solver. Qed.

Lemma refs_set_return_type e nd x :
  x ∈ refs_of (set_return_type e nd) → x ∈ refs_of nd ∨ x ∈ [e].
Proof. destruct nd; simpl; set_solver. Qed.

Lemma refs_add_parameter_type e nd x :
  x ∈ refs_of (add_parameter_type e nd) → x ∈ refs_of nd ∨ x ∈ [e].
Proof. destruct nd; simpl; set_solver. Qed.

Lemma refs_set_is_vararg nd x :
  x ∈ refs_of (set_is_vararg nd) → x ∈ refs_of nd ∨ x ∈ [].
Proof. destruct nd; simpl; set_solver. Qed.

Lemma refs_set_num_bytes_popped_off_stack k nd x :
  x ∈ refs_of (set_num_bytes_popped_off_stack k nd) →
  x ∈ refs_of nd ∨ x ∈ [].
Proof. destruct nd; simpl; set_solver. Qed.

Lemma refs_add_element_type e nd x :
  x ∈ refs_of (add_element_type e nd) → x ∈ refs_of nd ∨ x ∈ [e].
Proof. destruct nd; simpl; set_solver. Qed.

Lemma refs_set_underlying_type e nd x :
  x ∈ refs_of (set_underlying_type e nd) → x ∈ refs_of nd ∨ x ∈ [e].
Proof. destruct nd; simpl; set_solver. Qed.

Lemma complete_add_parameter_type e nd :
  complete (add_parameter_type e nd) = complete nd.
Proof. by destruct nd. Qed.

Lemma complete_add_element_type e nd :
  complete (add_element_type e nd) = complete nd.
Proof. by destruct nd. Qed.

Lemma complete_set_is_vararg nd : complete (set_is_vararg nd) = complete nd.
Proof. by destruct nd. Qed.

Lemma complete_set_num_bytes_popped_off_stack k nd :
  complete (set_num_bytes_popped_off_stack k nd) = complete nd.
Proof. by destruct nd. Qed.

(** A setter that keeps complete nodes complete, on a complete node. *)
Lemma after_complete f st r :
  (∀ nd, complete (f nd) = complete nd) →
  building lo r (after f (λ nd, complete nd = true)) st →
  building lo r (λ nd, complete nd = true) st.
Proof.
  intros Hf. apply building_weaken. intros nd (nd0 & H & ->).
  by rewrite Hf.
Qed.

(** The loops, on a complete node. *)
Lemma hoare_add_parameters conv r l :
  conv_ok lo conv → (∀ L ty, keeps L (conv ty)) →
  hoare (building lo r (λ nd, complete nd = true))
        (add_parameters conv r l)
        (λ _, building lo r (λ nd, complete nd = true)).
Proof.
  intros Hok Hkeep. induction l as [|a l IH]; simpl.
  - apply hoare_ret_unit.
  - eapply hoare_bind; [by apply hoare_conv|]. intros p.
    eapply hoare_bind;
      [apply hoare_update1, refs_add_parameter_type|]. intros ?.
    eapply hoare_pre; [|exact IH]. intros st.
    apply after_complete, complete_add_parameter_type.
Qed.

Lemma hoare_add_members conv ms r n i :
  conv_ok lo conv → (∀ L ty, keeps L (conv ty)) →
  hoare (building lo r (λ nd, complete nd = true))
        (add_members conv ms r n i)
        (λ _, building lo r (λ nd, complete nd = true)).
Proof.
  intros Hok Hkeep. revert i. induction n as [|n IH]; intros i; simpl.
  - apply hoare_ret_unit.
  - destruct (ms !! i) as [m|]; [|apply hoare_ret_unit].
    eapply hoare_bind; [by apply hoare_conv|]. intros p.
    eapply hoare_bind;
      [apply hoare_update1, refs_add_element_type|]. intros ?.
    eapply hoare_pre; [|apply IH]. intros st.
    apply after_complete, complete_add_element_type.
Qed.

(** The three ways in which a call ends with a result. *)
Lemma conv_ok_hit ty st r :
  lo ≤ length (heap st) → closed_from lo (heap st) → cache_within lo st →
  cache st !! ty = Some r →
  closed_from lo (heap st) ∧ cache_within lo st ∧
  lo ≤ r < length (heap st) ∧ complete_from (length (heap st)) (heap st).
Proof.
  intros Hlo Hcl Hca Hhit.
  split; [done|]. split; [done|]. split; [by eapply Hca|].
  intros i nd Hi Hnd. apply lookup_lt_Some in Hnd. lia.
Qed.

Lemma conv_ok_leaf nd st r st' :
  refs_of nd = [] → complete nd = true →
  lo ≤ length (heap st) → closed_from lo (heap st) → cache_within lo st →
  alloc nd st = (Ok r, st') →
  closed_from lo (heap st') ∧ cache_within lo st' ∧
  lo ≤ r < length (heap st') ∧ complete_from (length (heap st)) (heap st').
Proof.
  intros Hrefs Hcomp Hlo Hcl Hca [= <- <-]. simpl. rewrite length_app. simpl.
  split; [|split; [|split; [lia|]]].
  - intros i y z Hi Hy Hz. rewrite length_app. simpl.
    apply lookup_app_Some in Hy as [Hy | [_ Hy]].
    + specialize (Hcl i y z Hi Hy Hz). lia.
    + apply list_lookup_singleton_Some in Hy as [_ <-].
      rewrite Hrefs in Hz. by apply elem_of_nil in Hz.
  - intros k z Hk. simpl in *. rewrite length_app. simpl.
    specialize (Hca k z Hk). lia.
  - intros i y Hi Hy.
    apply lookup_app_Some in Hy as [Hy | [_ Hy]].
    + apply lookup_lt_Some in Hy. lia.
    + by apply list_lookup_singleton_Some in Hy as [_ <-].
Qed.

Lemma building_entered st ty nd :
  refs_of nd = [] →
  lo ≤ length (heap st) → closed_from lo (heap st) → cache_within lo st →
  building lo (length (heap st)) (eq nd) (entered st ty nd).
Proof.
  intros Hrefs Hlo Hcl Hca.
  split; [|split; [|split; [|split; [done|]]]].
  - intros i y z Hi Hy Hz. simpl in *. rewrite length_app. simpl.
    apply lookup_app_Some in Hy as [Hy | [_ Hy]].
    + specialize (Hcl i y z Hi Hy Hz). lia.
    + apply list_lookup_singleton_Some in Hy as [_ <-].
      rewrite Hrefs in Hz. by apply elem_of_nil in Hz.
  - intros k z Hk. simpl in *. rewrite length_app. simpl.
    destruct (decide (k = ty)) as [->|Hne].
    + rewrite lookup_insert_eq in Hk. injection Hk as <-. lia.
    + rewrite lookup_insert_ne in Hk by congruence.
      specialize (Hca k z Hk). lia.
  - intros i y Hi Hy. simpl in Hy. apply lookup_lt_Some in Hy.
    rewrite length_app in Hy. simpl in Hy. lia.
  - exists nd. split; [|done]. simpl.
    rewrite lookup_app_r by done. by rewrite Nat.sub_diag.
Qed.

Lemma conv_ok_cached nd ty (k : ref → M cstate ref) st a st' :
  refs_of nd = [] →
  (∀ r, hoare (building lo r (eq nd)) (k r)
          (λ b st1, b = r ∧ building lo r (λ x, complete x = true) st1)) →
  lo ≤ length (heap st) → closed_from lo (heap st) → cache_within lo st →
  (r <- alloc nd ;; cache_set ty r ;;; k r)%py st = (Ok a, st') →
  closed_from lo (heap st') ∧ cache_within lo st' ∧
  lo ≤ a < length (heap st') ∧ complete_from (length (heap st)) (heap st').
Proof.
  intros Hrefs Hk Hlo Hcl Hca Hrun.
  change (k (length (heap st)) (entered st ty nd) = (Ok a, st')) in Hrun.
  destruct (Hk _ _ _ _ (building_entered st ty nd Hrefs Hlo Hcl Hca) Hrun)
    as (-> & Hcl' & Hca' & Hco' & _ & x & Hx & Hcx).
  pose proof (lookup_lt_Some _ _ _ Hx) as Hr.
  split; [done|]. split; [done|]. split; [done|].
  intros i y Hi Hy. destruct (decide (i = length (heap st))) as [->|Hne].
  - congruence.
  - eapply Hco'; [|exact Hy]. lia.
Qed.

Lemma hoare_done r (P : node → Prop) :
  (∀ nd, P nd → complete nd = true) →
  hoare (building lo r P) (ret r)
        (λ b st1, b = r ∧ building lo r (λ x, complete x = true) st1).
Proof.
  intros HP st b st' Hb [= <- <-]. split; [done|].
  by eapply building_weaken.
Qed.

Lemma hoare_complete {A} r (P : node → Prop) (m : M cstate A) Q :
  (∀ nd, P nd → complete nd = true) →
  hoare (building lo r (λ x, complete x = true)) m Q →
  hoare (building lo r P) m Q.
Proof.
  intros HP. apply hoare_pre. intros st. by apply building_weaken.
Qed.

Lemma hoare_update_complete r f :
  (∀ nd x, x ∈ refs_of (f nd) → x ∈ refs_of nd ∨ x ∈ []) →
  (∀ nd, complete (f nd) = complete nd) →
  hoare (building lo r (λ x, complete x = true)) (update r f)
        (λ _, building lo r (λ x, complete x = true)).
Proof.
  intros Hrefs Hf st a st' Hb Hrun. apply (after_complete f); [done|].
  by apply (hoare_update0 r f _ Hrefs st a st').
Qed.

Ltac after_tac :=
  let nd := fresh "nd" in
  let H := fresh "H" in
  intros nd H; repeat (destruct H as (? & H & ?)); subst; reflexivity.

Ltac hoare_tac :=
  cbv beta;
  first
    [ (apply hoare_done; first [done | after_tac])
    | (eapply hoare_bind; [by apply hoare_conv|intros ?])
    | (eapply hoare_bind; [by apply hoare_alloc|intros ?])
    | (eapply hoare_bind;
        [apply hoare_update1;
         first [ apply refs_set_element_type | apply refs_set_return_type
               | apply refs_set_underlying_type ]|intros ?])
    | (eapply hoare_bind;
        [apply hoare_update0, refs_set_num_elements|intros ?])
    | (eapply hoare_bind; [by apply hoare_add_members|intros ?])
    | (eapply hoare_bind; [by apply hoare_add_parameters|intros ?])
    | (eapply hoare_bind;
        [apply hoare_if;
         [ apply hoare_update_complete;
           first [ apply refs_set_is_vararg
                 | apply refs_set_num_bytes_popped_off_stack
                 | apply complete_set_is_vararg
                 | apply complete_set_num_bytes_popped_off_stack ]
         | apply hoare_ret_unit ]|intros ?])
    | (apply hoare_complete; [first [by intros ? <- | after_tac]|]) ].

(** One call, when the calls it makes are as [conv_ok] says. *)
Lemma convert_body_ok conv :
  conv_ok lo conv → (∀ L ty, keeps L (conv ty)) →
  conv_ok lo (convert_body db conv).
Proof.
  intros Hok Hkeep ty st a st' Hlo Hcl Hca.
  destruct (cache st !! ty) as [r|] eqn:Hhit.
  { rewrite (convert_body_hit _ _ _ _ _ Hhit). intros [= <- <-].
    by apply conv_ok_hit with ty. }
  rewrite (convert_body_miss _ _ _ _ Hhit).
  unfold convert_miss. cbv zeta. generalize (tinfo_of db ty). intros t.
  repeat match goal with
    | |- (if ?b then _ else _) _ = _ → _ => destruct b eqn:?
    end;
    try (by apply conv_ok_leaf);
    try (by intros [=]);
    try match goal with
      | |- context [is_struct t] => destruct (is_struct t)
      end;
    (apply conv_ok_cached; [done| |done..]); intros r; repeat hoare_tac.
Qed.

Lemma convert_fuel_ok n : conv_ok lo (convert_fuel db n).
Proof.
  induction n as [|n IH].
  - by intros ty st r st' _ _ _ [=].
  - simpl. apply convert_body_ok; [done|].
    intros L ty. apply convert_fuel_keeps.
Qed.

End Closed.

(** A conversion leaves no dangling reference and no half-built node.  From
    a state in which the nodes from the [lo]-th on refer to such nodes only,
    and in which the cache holds such nodes only, a conversion that returns
    leaves such a state again and returns such a node, and every node that it
    has added to the store is complete: the setters of its case have been
    called.  (The node it returns can be an older one, that of a type under
    conversion found in the cache; that node is completed by the call that
    made it.) *)
Theorem conversion_keeps_store_closed (db : ida) (lo : nat) ty st r :
  let st' := (_convert_ida_type db ty st).2 in
  (lo ≤ length (heap st))%nat →
  closed_from lo (heap st) → cache_within lo st →
  (_convert_ida_type db ty st).1 = Ok r →
  closed_from lo (heap st') ∧ cache_within lo st' ∧
  (lo ≤ r < length (heap st'))%nat ∧
  complete_from (length (heap st)) (heap st').
Proof.
  intros st' Hlo Hcl Hca Hrun. subst st'.
  destruct (_convert_ida_type db ty st) as [res st'] eqn:E.
  simpl in Hrun. subst res. simpl.
  by apply (convert_fuel_ok db lo (S (size (types db))) ty st r st').
Qed.

Lemma conversion_keeps_store_closed_witness :
  let st' := (_convert_ida_type ex_db 8 (CState [] ∅)).2 in
  closed_from 0 (heap st') ∧ cache_within 0 st' ∧
  (0 ≤ 0 < length (heap st'))%nat ∧
  complete_from (length (heap (CState [] ∅))) (heap st').
Proof.
  apply (conversion_keeps_store_closed ex_db 0 8%nat (CState [] ∅) 0%nat).
  - simpl. lia.
  - intros i nd r _ Hi. simpl in Hi. by rewrite lookup_nil in Hi.
  - intros k r Hk. simpl in Hk. by rewrite lookup_empty in Hk.
  - reflexivity.
Defined.

Lemma closed_from_length (h : list node) : closed_from (length h) h.
Proof.
  intros i nd r Hi Hnd. apply lookup_lt_Some in Hnd. lia.
Qed.

Lemma convert_with_new_cache_new_nodes (db : ida) h w r :
  let w' := (convert_with_new_cache db h w).2 in
  (convert_with_new_cache db h w).1 = Ok r →
  closed_from (length (w_heap w)) (w_heap w') ∧
  complete_from (length (w_heap w)) (w_heap w') ∧
  (length (w_heap w) ≤ r < length (w_heap w'))%nat.
Proof.
  unfold convert_with_new_cache.
  pose proof (convert_fuel_ok db (length (w_heap w)) (S (size (types db)))
                h (CState (w_heap w) ∅) r) as Hok.
  fold (_convert_ida_type db h) in Hok.
  destruct (_convert_ida_type db h (CState (w_heap w) ∅)) as [res st'].
  simpl. intros ->.
  by destruct (Hok st') as (H1 & _ & H3 & H4);
    [| apply closed_from_length | | |].
Qed.

Lemma new_void_new_nodes w r :
  let w' := (new_void w).2 in
  (new_void w).1 = Ok r →
  closed_from (length (w_heap w)) (w_heap w') ∧
  complete_from (length (w_heap w)) (w_heap w') ∧
  (length (w_heap w) ≤ r < length (w_heap w'))%nat.
Proof.
  simpl. intros [= <-]. rewrite length_app. simpl.
  split; [|split; [|lia]].
  - intros i nd x Hi Hnd Hx.
    apply lookup_app_Some in Hnd as [Hnd | [_ Hnd]].
    + apply lookup_lt_Some in Hnd. lia.
    + apply list_lookup_singleton_Some in Hnd as [_ <-].
      by apply elem_of_nil in Hx.
  - intros i nd Hi Hnd.
    apply lookup_app_Some in Hnd as [Hnd | [_ Hnd]].
    + apply lookup_lt_Some in Hnd. lia.
    + by apply list_lookup_singleton_Some in Hnd as [_ <-].
Qed.

Lemma get_type_new_nodes (db : ida) x w r :
  let w' := (get_type db x w).2 in
  converted_value x = true → (get_type db x w).1 = Ok r →
  closed_from (length (w_heap w)) (w_heap w') ∧
  complete_from (length (w_heap w)) (w_heap w') ∧
  (length (w_heap w) ≤ r < length (w_heap w'))%nat.
Proof.
  pose proof (convert_with_new_cache_new_nodes db) as Hc.
  pose proof (new_void_new_nodes w r) as Hv.
  destruct x as [r0|f|h|z| |s]; try done; intros w' _; subst w';
    unfold get_type;
    try (destruct (recover_tinfo db _) as [h|]);
    repeat destruct (negb _);
    first [ apply Hc | apply Hv | by intros [=] ].
Qed.




(** ** The failures of a conversion *)

Section Blame.
Context (db : ida).












End Blame.



(** ** What [get_function] prints *)

(** A call of [get_function] that raises prints nothing.  A call that
    returns has converted the type of the function anew: the store has
    grown, and the one line printed is the serialization of the node that
    this call has made (the first new node of the store), also when the
    entity returned is one that the registry already had, whose type is an
    older node.  An entity that the call has made holds the new node. *)
Theorem get_function_prints_new_type (db : ida) arch a w :
  let w' := (get_function db arch a w).2 in
  (∀ e, (get_function db arch a w).1 = Raise e →
        w_stdout w' = w_stdout w) ∧
  (∀ fn, (get_function db arch a w).1 = Ok fn →
     ∃ f, checked_region db a = Some f ∧
       (length (w_heap w) < length (w_heap w'))%nat ∧
       w_stdout w' =
         w_stdout w ++ [serialize db arch (w_heap w') (length (w_heap w))] ∧
       (_FUNCTIONS w !! start_ea f = None → type fn = length (w_heap w))).
Proof.
  rewrite get_function_eq.
  destruct (checked_region db a) as [f|]; [|by split].
  destruct (get_type_changes db (VInt (start_ea f)) w)
    as (Hreg & _ & Hout & _ & Hnew).
  pose proof (get_type_new_nodes db (VInt (start_ea f)) w) as Hgrow.
  destruct (get_type db (VInt (start_ea f)) w) as [[ft | e |] w1];
    simpl in Hreg, Hout, Hnew, Hgrow.
  - rewrite (Hnew ft eq_refl eq_refl) in *.
    destruct (Hgrow _ eq_refl eq_refl) as (_ & _ & Hlt).
    unfold register. rewrite Hreg, Hout.
    destruct (_FUNCTIONS w !! start_ea f) as [g|] eqn:Hg; simpl.
    + split; [done|]. intros fn [= <-]. exists f.
      split; [done|]. split; [lia|]. split; [done|].
      intros E. congruence.
    + split; [done|]. intros fn [= <-]. exists f.
      split; [done|]. split; [lia|]. split; done.
  - destruct e; simpl; split; done.
  - simpl. split; done.
Qed.

(** ** The graph that a conversion builds does not depend on the store *)

Section Shift.
Context (db : ida) (h : list node).
Local Open Scope nat_scope.

Local Notation moved := (λ a1 a2 : ref, a2 = length h + a1).
Local Notation any := (λ _ _ : unit, True).

Lemma shifts_bind {A B} (Q : A → A → Prop) (R : B → B → Prop)
    (m1 m2 : M cstate A) (k1 k2 : A → M cstate B) :
  shifts h Q m1 m2 → (∀ a1 a2, Q a1 a2 → shifts h R (k1 a1) (k2 a2)) →
  shifts h R (bind m1 k1) (bind m2 k2).
Proof.
  intros Hm Hk st1 st2 Hst. destruct (Hm st1 st2 Hst) as [Hst' Hres].
  unfold bind.
  destruct (m1 st1) as [[a1 | e1 |] s1], (m2 st2) as [[a2 | e2 |] s2];
    simpl in *; try done.
  by apply Hk.
Qed.

Lemma shifts_ret {A} (Q : A → A → Prop) a1 a2 :
  Q a1 a2 → shifts h Q (ret a1) (ret a2).
Proof. by intros HQ st1 st2 Hst. Qed.

Lemma shifts_raise {A} (Q : A → A → Prop) e :
  shifts h Q (raise e) (raise e).
Proof. by intros st1 st2 Hst. Qed.

Lemma shifts_diverge {A} (Q : A → A → Prop) : shifts h Q diverge diverge.
Proof. by intros st1 st2 Hst. Qed.

Lemma shifts_alloc nd :
  shift_node (length h) nd = nd → shifts h moved (alloc nd) (alloc nd).
Proof.
  intros Hnd st1 st2 [Hh Hc]. split; [split|]; simpl.
  - rewrite Hh, fmap_app, app_assoc. simpl. by rewrite Hnd.
  - done.
  - by rewrite Hh, length_app, length_fmap.
Qed.

Lemma shifts_update r f1 f2 :
  (∀ nd, shift_node (length h) (f1 nd) = f2 (shift_node (length h) nd)) →
  shifts h any (update r f1) (update (length h + r) f2).
Proof.
  intros Hf st1 st2 [Hh Hc]. split; [|done]. split; [|done]. simpl.
  rewrite Hh, alter_app_r. f_equal. symmetry. apply list_fmap_alter.
  apply Forall_forall. intros nd _. apply Hf.
Qed.

Lemma shifts_cache_set ty r :
  shifts h any (cache_set ty r) (cache_set ty (length h + r)).
Proof.
  intros st1 st2 [Hh Hc]. split; [|done]. split; [done|]. simpl.
  by rewrite Hc, fmap_insert.
Qed.

Lemma shifts_cache_get ty :
  shifts h (λ o1 o2, o2 = (λ r, length h + r) <$> o1)
         (cache_get ty) (cache_get ty).
Proof.
  intros st1 st2 [Hh Hc]. split; [done|]. simpl.
  by rewrite Hc, lookup_fmap.
Qed.

Lemma shifts_if {A} (Q : A → A → Prop) (b : bool) (m1 m1' m2 m2' : M cstate A) :
  shifts h Q m1 m2 → shifts h Q m1' m2' →
  shifts h Q (if b then m1 else m1') (if b then m2 else m2').
Proof. by destruct b. Qed.

Ltac shift_setter := intros []; simpl; rewrite ?fmap_app; reflexivity.

Lemma shifts_add_parameters conv r l :
  (∀ ty, shifts h moved (conv ty) (conv ty)) →
  shifts h any (add_parameters conv r l)
               (add_parameters conv (length h + r) l).
Proof.
  intros Hc. induction l as [|a l IH]; simpl.
  - by apply shifts_ret.
  - eapply shifts_bind; [apply Hc|]. intros p1 p2 ->.
    eapply shifts_bind; [apply shifts_update; shift_setter|].
    intros _ _ _. apply IH.
Qed.

Lemma shifts_add_members conv ms r k i :
  (∀ ty, shifts h moved (conv ty) (conv ty)) →
  shifts h any (add_members conv ms r k i)
               (add_members conv ms (length h + r) k i).
Proof.
  intros Hc. revert i. induction k as [|k IH]; intros i; simpl.
  - by apply shifts_ret.
  - destruct (ms !! i); [|by apply shifts_ret].
    eapply shifts_bind; [apply Hc|]. intros p1 p2 ->.
    eapply shifts_bind; [apply shifts_update; shift_setter|].
    intros _ _ _. apply IH.
Qed.

Ltac shifts_tac Hc :=
  repeat first
    [ apply shifts_raise
    | (apply shifts_ret; reflexivity)
    | (apply shifts_ret; exact I)
    | apply Hc
    | (apply shifts_add_parameters; exact Hc)
    | (apply shifts_add_members; exact Hc)
    | apply shifts_cache_set
    | (apply shifts_update; shift_setter)
    | (apply shifts_alloc; reflexivity)
    | (eapply shifts_bind; [apply shifts_alloc; reflexivity|intros ? ? ->])
    | (eapply shifts_bind; [apply Hc|intros ? ? ->])
    | (eapply shifts_bind;
        [apply (shifts_if any);
         [apply shifts_update; shift_setter | apply shifts_ret; exact I]
        |intros ? ? _])
    | (eapply shifts_bind; [|intros ? ? _]) ].

Lemma convert_body_shifts conv :
  (∀ ty, shifts h moved (conv ty) (conv ty)) →
  ∀ ty, shifts h moved (convert_body db conv ty) (convert_body db conv ty).
Proof.
  intros Hc ty. unfold convert_body.
  eapply shifts_bind; [apply shifts_cache_get|]. intros o1 o2 ->.
  destruct o1 as [r|]; simpl; [by apply shifts_ret|].
  unfold convert_miss. cbv zeta. generalize (tinfo_of db ty). intros t.
  repeat match goal with
    | |- shifts h _ (if ?b then _ else _) _ => destruct b eqn:?
    end;
    try match goal with
      | |- context [is_struct t] => destruct (is_struct t)
      end;
    shifts_tac Hc.
Qed.

Lemma convert_fuel_shifts n ty :
  shifts h moved (convert_fuel db n ty) (convert_fuel db n ty).
Proof.
  revert ty. induction n as [|n IH]; intros ty.
  - apply shifts_diverge.
  - simpl. by apply convert_body_shifts.
Qed.

End Shift.

Lemma convert_with_new_cache_shift (db : ida) ty w w0 :
  w_heap w0 = [] →
  (convert_with_new_cache db ty w).1 =
    shift_result (length (w_heap w)) (convert_with_new_cache db ty w0).1 ∧
  w_heap (convert_with_new_cache db ty w).2 =
    w_heap w ++ (shift_node (length (w_heap w)) <$>
                 w_heap (convert_with_new_cache db ty w0).2).
Proof.
  intros H0. unfold convert_with_new_cache. rewrite H0.
  destruct (convert_fuel_shifts db (w_heap w) (S (size (types db))) ty
              (CState [] ∅) (CState (w_heap w) ∅)) as [[Hh _] Hres].
  { split; simpl; [by rewrite app_nil_r|by rewrite fmap_empty]. }
  fold (_convert_ida_type db ty) in Hh, Hres.
  destruct (_convert_ida_type db ty (CState [] ∅)) as [[a1 | e1 |] s1],
           (_convert_ida_type db ty (CState (w_heap w) ∅))
             as [[a2 | e2 |] s2];
    simpl in *; try done; by subst.
Qed.

(** The graph that [get_type] builds for a [tinfo_t] or an address does not
    depend on what the store holds: in a session whose store holds [n]
    nodes the call ends as it ends in a session with an empty store, it
    leaves the old nodes as they are and appends the very nodes that it
    makes in the empty store, every reference moved [n] places up, and the
    node it returns is moved likewise.  So two calls for the same type give
    two copies of one graph. *)
Theorem get_type_does_not_depend_on_store (db : ida) x w w0 :
  converted_value x = true → w_heap w0 = [] →
  (get_type db x w).1 =
    shift_result (length (w_heap w)) (get_type db x w0).1 ∧
  w_heap (get_type db x w).2 =
    w_heap w ++ (shift_node (length (w_heap w)) <$>
                 w_heap (get_type db x w0).2).
Proof.
  intros Hx H0.
  pose proof (λ ty, convert_with_new_cache_shift db ty w w0 H0) as Hc.
  assert (Hv : (new_void w).1 =
                 shift_result (length (w_heap w)) (new_void w0).1 ∧
               w_heap (new_void w).2 =
                 w_heap w ++ (shift_node (length (w_heap w)) <$>
                              w_heap (new_void w0).2)).
  { simpl. rewrite H0. simpl. by rewrite Nat.add_0_r. }
  assert (Hr : ∀ e : exc,
            (@raise world ref e w).1 =
              shift_result (length (w_heap w)) (@raise world ref e w0).1 ∧
            w_heap (@raise world ref e w).2 =
              w_heap w ++ (shift_node (length (w_heap w)) <$>
                           w_heap (@raise world ref e w0).2)).
  { intros e. simpl. rewrite H0. simpl. by rewrite app_nil_r. }
  destruct x as [r0|f|ty|z| |s]; try done; unfold get_type;
    try (destruct (recover_tinfo db _) as [ty|]);
    repeat destruct (negb _);
    first [ apply Hc | apply Hv | apply Hr ].
Qed.

Lemma get_type_does_not_depend_on_store_witness :
  (get_type ex_db (VTinfo 1) (World [VoidType; BoolType] ∅ 0 [])).1 =
    shift_result (length [VoidType; BoolType])
      (get_type ex_db (VTinfo 1) ex_world).1 ∧
  w_heap (get_type ex_db (VTinfo 1) (World [VoidType; BoolType] ∅ 0 [])).2 =
    [VoidType; BoolType] ++
    (shift_node (length [VoidType; BoolType]) <$>
     w_heap (get_type ex_db (VTinfo 1) ex_world).2).
Proof.
  apply (get_type_does_not_depend_on_store ex_db (VTinfo 1)
           (World [VoidType; BoolType] ∅ 0 []) ex_world); reflexivity.
Defined.

(** The same, evaluated: [struct node *] converted after two nodes. *)
Example convert_struct_node_pointer_after_two :
  let '(r, w) :=
    get_type ex_db (VTinfo 1) (World [VoidType; BoolType] ∅ 0 []) in
  r = Ok 2%nat ∧
  w_heap w = [VoidType; BoolType; PointerType (Some 3%nat);
              StructureType [4%nat]; PointerType (Some 3%nat)].
Proof. vm_compute. done. Qed.
